(** * mcp-postgres-full-access: transaction lifecycle manager

    A shallow embedding of [src/lib/utils.ts], [src/lib/transaction-manager.ts],
    [src/lib/types.ts], [src/lib/config.ts] and the tool handlers
    ([handleExecuteQuery], [handleExecuteDML], [handleExecuteCommit],
    [handleExecuteRollback] and the [execute_dml_ddl_dcl_tcl] dispatcher).

    JavaScript strings are sequences of UTF-16 code units; [async] functions
    are resumptions that run synchronously from one [await] to the next. *)

From Stdlib Require Import ZArith NArith Lia Ascii String DecimalString DecimalZ DecimalPos.
From stdpp Require Import base tactics option list numbers.

Local Open Scope Z_scope.

(** ** JavaScript strings *)

Module JsString.

(** A string value: its UTF-16 code units. *)
Definition t : Type := list N.

(** A string literal of the source (ASCII only). *)
Definition lit (s : string) : t :=
  map N_of_ascii (list_ascii_of_string s).

(** [!s] for a value of type [string]: only the empty string is falsy. *)
Definition falsy (s : t) : bool :=
  match s with [] => true | _ :: _ => false end.

(** WhiteSpace and LineTerminator code points of ECMAScript, the ones
    [String.prototype.trim] strips. All of them are single code units. *)
Definition isWhiteSpace (u : N) : bool :=
  ((u =? 0x0009) || (u =? 0x000A) || (u =? 0x000B) || (u =? 0x000C) ||
   (u =? 0x000D) || (u =? 0x0020) || (u =? 0x00A0) || (u =? 0x1680) ||
   ((0x2000 <=? u) && (u <=? 0x200A)) ||
   (u =? 0x2028) || (u =? 0x2029) || (u =? 0x202F) || (u =? 0x205F) ||
   (u =? 0x3000) || (u =? 0xFEFF))%N.

Fixpoint trimStart (s : t) : t :=
  match s with
  | [] => []
  | u :: s' => if isWhiteSpace u then trimStart s' else s
  end.

Definition trimEnd (s : t) : t := rev (trimStart (rev s)).

Definition trim (s : t) : t := trimEnd (trimStart s).

(** [s.startsWith(p)] *)
Fixpoint startsWith (p s : t) : bool :=
  match p, s with
  | [], _ => true
  | _ :: _, [] => false
  | a :: p', b :: s' => (a =? b)%N && startsWith p' s'
  end.

(** [s.includes(p)] *)
Fixpoint includes (p s : t) : bool :=
  startsWith p s ||
  match s with
  | [] => false
  | _ :: s' => includes p s'
  end.

(** [s.substring(0, n)] for a non-negative integer [n]. *)
Definition substring0 (n : nat) (s : t) : t := take n s.

(** The code units of the decimal numeral of an integer, as the template
    literal [`${Date.now()}`] prints it. *)
Definition ofZ (z : Z) : t := lit (NilZero.string_of_int (Z.to_int z)).

(** The restriction of [String.prototype.toUpperCase] to ASCII: letters
    [a]-[z] are mapped to [A]-[Z], every other code unit is kept. The
    classifier below takes the full Unicode mapping as a parameter; this
    instance is what it computes on ASCII statements. *)
Definition toUpperCaseAscii (s : t) : t :=
  map (fun u => if ((0x61 <=? u) && (u <=? 0x7A))%N then (u - 0x20)%N else u) s.

(** What "begins with" and "contains" mean. *)
Definition BeginsWith (p s : t) : Prop := exists rest, s = p ++ rest.
Definition Contains (p s : t) : Prop := exists pre post, s = pre ++ p ++ post.

End JsString.

Abbreviation jsstr := JsString.t.

(** ** [src/lib/utils.ts]: the statement classifier *)

Section Classifier.

(** [String.prototype.toUpperCase], a function of the JavaScript runtime. *)
Variable toUpperCase : jsstr -> jsstr.

Definition SELECT : jsstr := JsString.lit "SELECT".
Definition WITH : jsstr := JsString.lit "WITH".
Definition EXPLAIN : jsstr := JsString.lit "EXPLAIN".
Definition SHOW : jsstr := JsString.lit "SHOW".
Definition CREATE : jsstr := JsString.lit "CREATE".

Definition isReadOnlyQuery (sql : jsstr) : bool :=
  let normalizedSql := toUpperCase (JsString.trim sql) in
  JsString.startsWith SELECT normalizedSql ||
  JsString.startsWith WITH normalizedSql ||
  JsString.startsWith EXPLAIN normalizedSql ||
  (JsString.startsWith SHOW normalizedSql &&
   negb (JsString.includes CREATE normalizedSql)).

End Classifier.

(** [generateTransactionId]: [`tx_${Date.now()}_${suffix}`] where [suffix]
    is [Math.random().toString(36).substring(2, 15)], drawn by the caller. *)
Definition generateTransactionId (now : Z) (suffix : jsstr) : jsstr :=
  JsString.lit "tx_" ++ JsString.ofZ now ++ JsString.lit "_" ++ suffix.

(** ** [src/lib/types.ts] and [src/lib/config.ts] *)

(** A leased pool client ([pg.PoolClient]), named by the position of its
    acquisition in the event trace. *)
Abbreviation PoolClient := nat.

Inductive TxState : Type := active | terminating.

#[global] Instance TxState_eq_dec : EqDecision TxState.
Proof. solve_decision. Defined.

Record TrackedTransaction : Type := mkTrackedTransaction {
  tx_id : jsstr;
  client : PoolClient;
  startTime : Z;
  sql : jsstr;
  state : TxState;
  released : bool
}.

Record Config : Type := mkConfig {
  transactionTimeoutMs : Z;
  monitorIntervalMs : Z;
  enableTransactionMonitor : bool;
  maxConcurrentTransactions : Z
}.

(** The defaults of [config.ts]. *)
Definition defaultConfig : Config :=
  {| transactionTimeoutMs := 15000;
     monitorIntervalMs := 5000;
     enableTransactionMonitor := true;
     maxConcurrentTransactions := 10 |}.

(** ** The process state *)

(** What the process does to the pool and its clients, in order. A query is
    recorded when it is sent, a release when [client.release()] is called. *)
Inductive PoolEvent : Type :=
| EvAcquire (c : PoolClient)
| EvQuery (c : PoolClient) (text : jsstr)
| EvRelease (c : PoolClient).

#[global] Instance PoolEvent_eq_dec : EqDecision PoolEvent.
Proof. solve_decision. Defined.

(** A reference to a [TrackedTransaction] object: the handlers and the
    monitor keep such references across their [await]s, also after the
    registry has dropped the object. *)
Abbreviation TxRef := nat.

Record World : Type := mkWorld {
  (** [TransactionManager.activeTransactions]: a [Map] in insertion order. *)
  activeTransactions : list (jsstr * TxRef);
  (** the [TrackedTransaction] objects ever allocated *)
  objects : list TrackedTransaction;
  (** the pool events so far, oldest first *)
  trace : list PoolEvent;
  (** [Date.now()] *)
  clock : Z;
  (** the suffixes [Math.random()] will yield, and how many were drawn *)
  random : nat -> jsstr;
  draws : nat
}.

Definition emptyWorld (now : Z) (rnd : nat -> jsstr) : World :=
  {| activeTransactions := []; objects := []; trace := [];
     clock := now; random := rnd; draws := 0 |}.

Definition with_registry (f : list (jsstr * TxRef) -> list (jsstr * TxRef)) (w : World) : World :=
  {| activeTransactions := f (activeTransactions w); objects := objects w;
     trace := trace w; clock := clock w; random := random w; draws := draws w |}.

Definition with_objects (f : list TrackedTransaction -> list TrackedTransaction) (w : World) : World :=
  {| activeTransactions := activeTransactions w; objects := f (objects w);
     trace := trace w; clock := clock w; random := random w; draws := draws w |}.

Definition record_event (e : PoolEvent) (w : World) : World :=
  {| activeTransactions := activeTransactions w; objects := objects w;
     trace := trace w ++ [e]; clock := clock w; random := random w; draws := draws w |}.

Definition tick (d : Z) (w : World) : World :=
  {| activeTransactions := activeTransactions w; objects := objects w;
     trace := trace w; clock := clock w + d; random := random w; draws := draws w |}.

Definition draw (w : World) : World :=
  {| activeTransactions := activeTransactions w; objects := objects w;
     trace := trace w; clock := clock w; random := random w; draws := S (draws w) |}.

(** *** [Map] operations, insertion order kept *)

Module JsMap.

Fixpoint get {V} (k : jsstr) (m : list (jsstr * V)) : option V :=
  match m with
  | [] => None
  | (k', v) :: m' => if decide (k' = k) then Some v else get k m'
  end.

Definition has {V} (k : jsstr) (m : list (jsstr * V)) : bool :=
  match get k m with Some _ => true | None => false end.

(** [set] on a present key keeps its position; a new key goes last. *)
Fixpoint set {V} (k : jsstr) (v : V) (m : list (jsstr * V)) : list (jsstr * V) :=
  match m with
  | [] => [(k, v)]
  | (k', v') :: m' =>
      if decide (k' = k) then (k, v) :: m' else (k', v') :: set k v m'
  end.

Definition delete {V} (k : jsstr) (m : list (jsstr * V)) : list (jsstr * V) :=
  filter (fun kv => kv.1 <> k) m.

Definition size {V} (m : list (jsstr * V)) : Z := Z.of_nat (length m).

End JsMap.

(** ** Asynchronous functions *)

Record Error : Type := mkError { message : jsstr }.

(** What a settled [client.query] yields: [result.command], [result.rowCount]
    and the rows. *)
Record QueryResult : Type := mkQueryResult {
  command : jsstr;
  rowCount : Z;
  rows : list (list jsstr)
}.

(** What an [await] waits for. *)
Inductive Request : Type :=
| PoolConnect
| ClientQuery (c : PoolClient) (text : jsstr).

(** How the awaited promise settles. *)
Inductive Response : Type :=
| Resolved (r : QueryResult)
| Rejected (e : Error).

(** The body of an [async] function: it returns, throws, reads or updates
    the process state, or suspends at an [await] until the promise settles. *)
Inductive Async (R : Type) : Type :=
| Ret (r : R)
| Throw (e : Error)
| Get (k : World -> Async R)
| Modify (f : World -> World) (k : Async R)
| Await (rq : Request) (k : Response -> Async R).

Arguments Ret {R} r.
Arguments Throw {R} e.
Arguments Get {R} k.
Arguments Modify {R} f k.
Arguments Await {R} rq k.

Fixpoint bind {A B} (c : Async A) (f : A -> Async B) : Async B :=
  match c with
  | Ret a => f a
  | Throw e => Throw e
  | Get k => Get (fun w => bind (k w) f)
  | Modify g k => Modify g (bind k f)
  | Await rq k => Await rq (fun r => bind (k r) f)
  end.

#[global] Instance Async_ret : MRet Async := fun _ r => Ret r.
#[global] Instance Async_bind : MBind Async := fun _ _ f c => bind c f.

(** [try { body } catch (error) { handler error }] *)
Fixpoint try_catch {A} (body : Async A) (handler : Error -> Async A) : Async A :=
  match body with
  | Ret a => Ret a
  | Throw e => handler e
  | Get k => Get (fun w => try_catch (k w) handler)
  | Modify g k => Modify g (try_catch k handler)
  | Await rq k => Await rq (fun r => try_catch (k r) handler)
  end.

(** [try { body } finally { final }]: [final] runs on return and on throw. *)
Fixpoint try_finally {A} (body : Async A) (final : Async unit) : Async A :=
  match body with
  | Ret a => bind final (fun _ => Ret a)
  | Throw e => bind final (fun _ => Throw e)
  | Get k => Get (fun w => try_finally (k w) final)
  | Modify g k => Modify g (try_finally k final)
  | Await rq k => Await rq (fun r => try_finally (k r) final)
  end.

(** A synchronous statement. *)
Definition exec (f : World -> World) : Async unit := Modify f (Ret tt).

(** How far a task gets before it has to wait. *)
Inductive Status (R : Type) : Type :=
| Finished (r : R)
| Raised (e : Error)
| Blocked (rq : Request) (k : Response -> Async R).

Arguments Finished {R} r.
Arguments Raised {R} e.
Arguments Blocked {R} rq k.

(** Run a task to its next suspension point. *)
Fixpoint advance {R} (c : Async R) (w : World) : World * Status R :=
  match c with
  | Ret r => (w, Finished r)
  | Throw e => (w, Raised e)
  | Get k => advance (k w) w
  | Modify f k => advance k (f w)
  | Await rq k => (w, Blocked rq k)
  end.

(** Run a task alone: each awaited promise settles with the next response
    of the list, after the clock has moved by the given amount. The
    responses that were not consumed are returned as well. *)
Fixpoint run {R} (c : Async R) (w : World) (settle : list (Z * Response))
  : World * Status R * list (Z * Response) :=
  match c with
  | Ret r => (w, Finished r, settle)
  | Throw e => (w, Raised e, settle)
  | Get k => run (k w) w settle
  | Modify f k => run k (f w) settle
  | Await rq k =>
      match settle with
      | [] => (w, Blocked rq k, [])
      | (d, r) :: settle' => run (k r) (tick d w) settle'
      end
  end.

(** ** The pool client ([pg]) and the client-lease wrapper *)

Definition Date_now : Async Z := Get (fun w => Ret (clock w)).

(** [await pool.connect()]: the lease is named by the position of its
    acquisition in the trace, so no two leases share a name. *)
Definition pool_connect : Async PoolClient :=
  Await PoolConnect (fun r =>
    match r with
    | Resolved _ =>
        Get (fun w => let c := length (trace w) in
                      Modify (record_event (EvAcquire c)) (Ret c))
    | Rejected e => Throw e
    end).

(** [await client.query(text)]: the statement is sent, then awaited. *)
Definition client_query (c : PoolClient) (text : jsstr) : Async QueryResult :=
  Modify (record_event (EvQuery c text))
    (Await (ClientQuery c text) (fun r =>
       match r with
       | Resolved res => Ret res
       | Rejected e => Throw e
       end)).

Definition alreadyReleasedError : Error :=
  mkError (JsString.lit "Release called on client which has already been released to the pool.").

(** [client.release()]: [pg] throws when the lease was released before. *)
Definition client_release (c : PoolClient) : Async unit :=
  Get (fun w =>
    Modify (record_event (EvRelease c))
      (if decide (EvRelease c ∈ trace w) then Throw alreadyReleasedError else Ret tt)).

Definition safelyReleaseClient (c : PoolClient) : Async unit :=
  try_catch (client_release c) (fun err => Ret tt).

(** ** What a tool call returns

    One constructor per [return] of the handlers, with the fields of the
    JSON payload the handler builds. *)
Inductive ToolResult : Type :=
| NoSqlProvided
| NotReadOnly
| QueryRows (rows : list (list jsstr)) (rowCount : Z) (execution_time_ms : Z)
| Pending (transaction_id : jsstr) (command : jsstr) (rowCount : Z)
    (execution_time_ms : Z) (timeout_ms : Z)
| StatementFailed (message : jsstr) (sql : jsstr)
| TooManyTransactions (limit : Z)
| NoTransactionIdProvided
| TransactionNotFound (transaction_id : jsstr)
| AlreadyReleased (transaction_id : jsstr)
| Committed (transaction_id : jsstr)
| CommitFailed (message : jsstr) (transaction_id : jsstr)
| RolledBack (transaction_id : jsstr)
| RollbackFailed (message : jsstr) (transaction_id : jsstr)
| ToolError (message : jsstr).

Definition isError (r : ToolResult) : bool :=
  match r with
  | QueryRows _ _ _ | Pending _ _ _ _ _ | Committed _ | RolledBack _ => false
  | _ => true
  end.

(** ** [src/lib/transaction-manager.ts] *)

Definition typeError : Error :=
  mkError (JsString.lit "Cannot read properties of undefined").

(** Reading the object behind a reference. *)
Definition deref (transaction : TxRef) : Async TrackedTransaction :=
  Get (fun w =>
    match objects w !! transaction with
    | Some o => Ret o
    | None => Throw typeError
    end).

Definition mark_released (o : TrackedTransaction) : TrackedTransaction :=
  {| tx_id := tx_id o; client := client o; startTime := startTime o;
     sql := sql o; state := state o; released := true |}.

Definition mark_terminating (o : TrackedTransaction) : TrackedTransaction :=
  {| tx_id := tx_id o; client := client o; startTime := startTime o;
     sql := sql o; state := terminating; released := released o |}.

(** [transaction.released = true] *)
Definition set_released (transaction : TxRef) : World -> World :=
  with_objects (alter mark_released transaction).

(** [transaction.state = 'terminating'] *)
Definition set_terminating (transaction : TxRef) : World -> World :=
  with_objects (alter mark_terminating transaction).

Definition addTransaction (id : jsstr) (cl : PoolClient) (sql : jsstr) (w : World) : World :=
  let transaction :=
    {| tx_id := id;
       client := cl;
       startTime := clock w;
       sql := JsString.substring0 100 sql;
       state := active;
       released := false |} in
  with_registry (JsMap.set id (length (objects w)))
    (with_objects (fun os => os ++ [transaction]) w).

Definition getTransaction (id : jsstr) (w : World) : option TxRef :=
  JsMap.get id (activeTransactions w).

Definition removeTransaction (id : jsstr) : World -> World :=
  with_registry (JsMap.delete id).

Definition hasTransaction (id : jsstr) (w : World) : bool :=
  JsMap.has id (activeTransactions w).

Definition transactionCount (w : World) : Z :=
  JsMap.size (activeTransactions w).

Definition ROLLBACK : jsstr := JsString.lit "ROLLBACK".
Definition COMMIT : jsstr := JsString.lit "COMMIT".
Definition BEGIN : jsstr := JsString.lit "BEGIN".
Definition BEGIN_READ_ONLY : jsstr := JsString.lit "BEGIN TRANSACTION READ ONLY".

(** The asynchronous function [checkStuckTransactions] starts for a stuck
    transaction, with the [.catch] attached to its promise. *)
Definition forcedRollback (id : jsstr) (transaction : TxRef) : Async unit :=
  try_catch
    (try_finally
       (try_catch
          (o ← deref transaction;
           _ ← client_query (client o) ROLLBACK;
           Ret tt)
          (fun error => Ret tt))
       (o ← deref transaction;
        (if negb (released o)
         then exec (set_released transaction);; safelyReleaseClient (client o)
         else Ret tt);;
        exec (removeTransaction id)))
    (fun err =>
       o ← deref transaction;
       (if negb (released o)
        then exec (set_released transaction);;
             try_catch (safelyReleaseClient (client o)) (fun releaseErr => Ret tt)
        else Ret tt);;
       exec (removeTransaction id)).

(** A task that waits for a promise: a tool call, or work nobody awaits. *)
Inductive Task : Type :=
| ToolCall (rq : Request) (k : Response -> Async ToolResult)
| Background (rq : Request) (k : Response -> Async unit).

(** Start an asynchronous function nobody awaits: it runs up to its first
    [await] at once. *)
Definition spawn (c : Async unit) (w : World) : World * list Task :=
  match advance c w with
  | (w', Blocked rq k) => (w', [Background rq k])
  | (w', _) => (w', [])
  end.

(** The loop of [checkStuckTransactions] over the registry entries. *)
Fixpoint sweep (timeout now : Z) (entries : list (jsstr * TxRef)) (w : World)
  : World * list Task :=
  match entries with
  | [] => (w, [])
  | (id, transaction) :: rest =>
      match objects w !! transaction with
      | None => (w, [])                 (* reading a field of [undefined] throws *)
      | Some o =>
          if released o then sweep timeout now rest w
          else
            let age := now - startTime o in
            if (age >? timeout) && bool_decide (state o = active) then
              let '(w1, started) := spawn (forcedRollback id transaction)
                                      (set_terminating transaction w) in
              let '(w2, more) := sweep timeout now rest w1 in
              (w2, started ++ more)
            else sweep timeout now rest w
      end
  end.

Definition checkStuckTransactions (cfg : Config) (w : World) : World * list Task :=
  let now := clock w in
  sweep (transactionTimeoutMs cfg) now (activeTransactions w) w.

(** The loop of [cleanupTransactions] over the snapshot of the registry. *)
Fixpoint drain (transactionEntries : list (jsstr * TxRef)) : Async unit :=
  match transactionEntries with
  | [] => Ret tt
  | (id, transaction) :: rest =>
      o ← deref transaction;
      (if released o
       then exec (removeTransaction id)
       else
         try_catch
           (_ ← client_query (client o) ROLLBACK;
            exec (set_released transaction);;
            safelyReleaseClient (client o);;
            exec (removeTransaction id))
           (fun error =>
              exec (set_released transaction);;
              try_catch (safelyReleaseClient (client o)) (fun releaseErr => Ret tt);;
              exec (removeTransaction id)));;
      drain rest
  end.

Definition cleanupTransactions : Async unit :=
  Get (fun w =>
    let transactionEntries := activeTransactions w in
    drain transactionEntries;;
    exec (with_registry (fun _ => []))).

(** ** The tool handlers *)

Section Handlers.

Variable toUpperCase : jsstr -> jsstr.

Definition handleExecuteQuery (sql : jsstr) : Async ToolResult :=
  cl ← pool_connect;
  try_finally
    (if JsString.falsy sql then
       safelyReleaseClient cl;;
       Ret NoSqlProvided
     else if negb (isReadOnlyQuery toUpperCase sql) then
       safelyReleaseClient cl;;
       Ret NotReadOnly
     else
       _ ← client_query cl BEGIN_READ_ONLY;
       t0 ← Date_now;
       result ← client_query cl sql;
       t1 ← Date_now;
       let execTime := t1 - t0 in
       _ ← client_query cl COMMIT;
       Ret (QueryRows (rows result) (rowCount result) execTime))
    (safelyReleaseClient cl).

Definition freshTransactionId : Async jsstr :=
  Get (fun w =>
    Modify draw (Ret (generateTransactionId (clock w) (random w (draws w))))).

Definition handleExecuteDML (sql : jsstr) (transactionTimeoutMs : Z) : Async ToolResult :=
  cl ← pool_connect;
  try_catch
    (if JsString.falsy sql then
       safelyReleaseClient cl;;
       Ret NoSqlProvided
     else
       _ ← client_query cl BEGIN;
       transactionId ← freshTransactionId;
       try_catch
         (t0 ← Date_now;
          result ← client_query cl sql;
          t1 ← Date_now;
          let execTime := t1 - t0 in
          exec (addTransaction transactionId cl sql);;
          Ret (Pending transactionId (command result) (rowCount result)
                 execTime transactionTimeoutMs))
         (fun error =>
            _ ← client_query cl ROLLBACK;
            safelyReleaseClient cl;;
            Ret (StatementFailed (message error) sql)))
    (fun error =>
       safelyReleaseClient cl;;
       Throw error).

Definition handleExecuteCommit (transactionId : jsstr) : Async ToolResult :=
  if JsString.falsy transactionId then Ret NoTransactionIdProvided
  else
    Get (fun w =>
      if negb (hasTransaction transactionId w) then
        Ret (TransactionNotFound transactionId)
      else
        match getTransaction transactionId w with
        | None => Throw typeError
        | Some transaction =>
            o ← deref transaction;
            if released o then
              exec (removeTransaction transactionId);;
              Ret (AlreadyReleased transactionId)
            else
              try_catch
                (_ ← client_query (client o) COMMIT;
                 exec (set_released transaction);;
                 safelyReleaseClient (client o);;
                 exec (removeTransaction transactionId);;
                 Ret (Committed transactionId))
                (fun error =>
                   try_catch (_ ← client_query (client o) ROLLBACK; Ret tt)
                     (fun rollbackError => Ret tt);;
                   exec (set_released transaction);;
                   safelyReleaseClient (client o);;
                   exec (removeTransaction transactionId);;
                   Ret (CommitFailed (message error) transactionId))
        end).

Definition handleExecuteRollback (transactionId : jsstr) : Async ToolResult :=
  if JsString.falsy transactionId then Ret NoTransactionIdProvided
  else
    Get (fun w =>
      if negb (hasTransaction transactionId w) then
        Ret (TransactionNotFound transactionId)
      else
        match getTransaction transactionId w with
        | None => Throw typeError
        | Some transaction =>
            o ← deref transaction;
            if released o then
              exec (removeTransaction transactionId);;
              Ret (AlreadyReleased transactionId)
            else
              try_catch
                (_ ← client_query (client o) ROLLBACK;
                 exec (set_released transaction);;
                 safelyReleaseClient (client o);;
                 exec (removeTransaction transactionId);;
                 Ret (RolledBack transactionId))
                (fun error =>
                   exec (set_released transaction);;
                   safelyReleaseClient (client o);;
                   exec (removeTransaction transactionId);;
                   Ret (RollbackFailed (message error) transactionId))
        end).

(** The [execute_dml_ddl_dcl_tcl] tool: the ceiling check, then the handler;
    whatever is thrown becomes an error result. *)
Definition execute_dml_ddl_dcl_tcl (cfg : Config) (sql : jsstr) : Async ToolResult :=
  try_catch
    (Get (fun w =>
       if transactionCount w >=? maxConcurrentTransactions cfg then
         Ret (TooManyTransactions (maxConcurrentTransactions cfg))
       else
         result ← handleExecuteDML sql (transactionTimeoutMs cfg);
         Ret result))
    (fun error => Ret (ToolError (message error))).

End Handlers.

(** ** The process: tool calls, settled promises, the monitor timer, shutdown *)

Section Process.

Variable toUpperCase : jsstr -> jsstr.
Variable cfg : Config.

(** The [execute_rollback] tool of the server, written out in its
    registration: no [try] around the [ROLLBACK] itself. *)
Definition execute_rollback (transactionId : jsstr) : Async ToolResult :=
  try_catch
    (Get (fun w =>
       if negb (hasTransaction transactionId w) then
         Ret (TransactionNotFound transactionId)
       else
         match getTransaction transactionId w with
         | None => Throw typeError
         | Some transaction =>
             o ← deref transaction;
             if released o then
               exec (removeTransaction transactionId);;
               Ret (AlreadyReleased transactionId)
             else
               _ ← client_query (client o) ROLLBACK;
               exec (set_released transaction);;
               safelyReleaseClient (client o);;
               exec (removeTransaction transactionId);;
               Ret (RolledBack transactionId)
         end))
    (fun error => Ret (ToolError (message error))).

Inductive Call : Type :=
| execute_query_call (sql : jsstr)
| execute_dml_call (sql : jsstr)
| execute_commit_call (transaction_id : jsstr)
| execute_rollback_call (transaction_id : jsstr)
| handleExecuteRollback_call (transaction_id : jsstr).

(** Every registered tool wraps its handler in
    [try { ... } catch (error) { return { text: error.message, isError: true } }]. *)
Definition tool (c : Call) : Async ToolResult :=
  match c with
  | execute_query_call sql =>
      try_catch (handleExecuteQuery toUpperCase sql)
        (fun error => Ret (ToolError (message error)))
  | execute_dml_call sql => execute_dml_ddl_dcl_tcl cfg sql
  | execute_commit_call id =>
      try_catch (handleExecuteCommit id)
        (fun error => Ret (ToolError (message error)))
  | execute_rollback_call id => execute_rollback id
  | handleExecuteRollback_call id =>
      try_catch (handleExecuteRollback id)
        (fun error => Ret (ToolError (message error)))
  end.

Record System : Type := mkSystem {
  world : World;
  (** the tasks suspended at an [await] *)
  tasks : list Task;
  (** the results returned to callers so far, oldest first *)
  replies : list ToolResult
}.

Definition initial (now : Z) (rnd : nat -> jsstr) : System :=
  {| world := emptyWorld now rnd; tasks := []; replies := [] |}.

(** What can happen next on the event loop. *)
Inductive Occurrence : Type :=
| Invoke (c : Call)                     (* a request arrives *)
| Settle (i : nat) (r : Response)       (* the promise task [i] awaits settles *)
| Elapse (d : Z)                        (* time passes *)
| MonitorTimer                          (* the [setInterval] callback fires *)
| Shutdown.                             (* [cleanupTransactions] is called *)

Definition start_tool (c : Async ToolResult) (s : System) : System :=
  match advance c (world s) with
  | (w, Finished r) => {| world := w; tasks := tasks s; replies := replies s ++ [r] |}
  | (w, Raised e) => {| world := w; tasks := tasks s; replies := replies s |}
  | (w, Blocked rq k) =>
      {| world := w; tasks := tasks s ++ [ToolCall rq k]; replies := replies s |}
  end.

Definition start_background (c : Async unit) (s : System) : System :=
  let '(w, started) := spawn c (world s) in
  {| world := w; tasks := tasks s ++ started; replies := replies s |}.

Definition occur (o : Occurrence) (s : System) : System :=
  match o with
  | Invoke c => start_tool (tool c) s
  | Settle i r =>
      match tasks s !! i with
      | None => s
      | Some (ToolCall _ k) =>
          start_tool (k r)
            {| world := world s; tasks := delete i (tasks s); replies := replies s |}
      | Some (Background _ k) =>
          start_background (k r)
            {| world := world s; tasks := delete i (tasks s); replies := replies s |}
      end
  | Elapse d =>
      {| world := tick d (world s); tasks := tasks s; replies := replies s |}
  | MonitorTimer =>
      let '(w, started) := checkStuckTransactions cfg (world s) in
      {| world := w; tasks := tasks s ++ started; replies := replies s |}
  | Shutdown => start_background cleanupTransactions s
  end.

(** A schedule is the sequence of occurrences, first one first. *)
Definition play (schedule : list Occurrence) (s : System) : System :=
  foldl (fun s o => occur o s) s schedule.

Definition Reachable (s : System) : Prop :=
  exists now rnd schedule, s = play schedule (initial now rnd).

End Process.

(** ** Observations on a trace *)

Definition releases (c : PoolClient) (tr : list PoolEvent) : nat :=
  length (filter (fun e => e = EvRelease c) tr).

Definition queries (c : PoolClient) (text : jsstr) (tr : list PoolEvent) : nat :=
  length (filter (fun e => e = EvQuery c text) tr).

Definition is_acquire (e : PoolEvent) : bool :=
  match e with EvAcquire _ => true | _ => false end.

Definition acquisitions (tr : list PoolEvent) : nat :=
  length (filter (fun e => is_acquire e = true) tr).

(** ** What the shutdown drain owes to a registry *)

(** How many rollbacks a drain of these entries awaits: one for every
    entry whose object is not yet released. *)
Fixpoint rollbacks_due (objs : list TrackedTransaction) (entries : list (jsstr * TxRef)) : nat :=
  match entries with
  | [] => 0
  | (id, transaction) :: rest =>
      match objs !! transaction with
      | Some o =>
          if released o then rollbacks_due objs rest
          else S (rollbacks_due objs rest)
      | None => rollbacks_due objs rest
      end
  end.

(** The pool events of a drain, entry by entry. *)
Fixpoint drain_events (objs : list TrackedTransaction) (entries : list (jsstr * TxRef))
  : list PoolEvent :=
  match entries with
  | [] => []
  | (id, transaction) :: rest =>
      match objs !! transaction with
      | Some o =>
          if released o then drain_events objs rest
          else EvQuery (client o) ROLLBACK :: EvRelease (client o) :: drain_events objs rest
      | None => drain_events objs rest
      end
  end.

(** The process state once the drain is done with an unreleased entry:
    [ROLLBACK] sent, answered after [d], flag set, lease given back, entry
    removed. *)
Definition drained (id : jsstr) (transaction : TxRef) (o : TrackedTransaction) (d : Z)
    (w : World) : World :=
  removeTransaction id
    (record_event (EvRelease (client o))
       (set_released transaction
          (tick d (record_event (EvQuery (client o) ROLLBACK) w)))).

(** Every registry entry points to an object, and no two to the same one. *)
Definition registry_bound (w : World) : Prop :=
  (forall id transaction,
     (id, transaction) ∈ activeTransactions w -> is_Some (objects w !! transaction)) /\
  NoDup (snd <$> activeTransactions w).

(** ** The registry invariant and what tasks may assume of each other *)

(** No key occurs twice in the registry, and every entry points to an
    object that carries the entry's key as its identifier and whose
    [released] flag is not set. *)
Definition registry_ok (w : World) : Prop :=
  NoDup (fst <$> activeTransactions w) /\
  forall id transaction,
    (id, transaction) ∈ activeTransactions w ->
    exists o, objects w !! transaction = Some o /\ tx_id o = id /\ released o = false.

(** What no step of the process undoes: objects stay where they are and
    keep their identifier and their client. *)
Definition extends (w w' : World) : Prop :=
  forall transaction o,
    objects w !! transaction = Some o ->
    exists o', objects w' !! transaction = Some o' /\
               tx_id o' = tx_id o /\ client o' = client o.

(** [wp c Q E w]: started in [w], the task [c] keeps [registry_ok] at each
    of its suspension points, whatever the other tasks did while it waited
    (they keep [registry_ok] and [extends]); each of its own updates is within
    [extends]; it ends in a state that satisfies [Q] (on return) or [E] (on
    throw). *)
Fixpoint wp {R} (c : Async R) (Q : R -> World -> Prop) (E : Error -> World -> Prop)
    (w : World) : Prop :=
  match c with
  | Ret r => Q r w
  | Throw e => E e w
  | Get k => wp (k w) Q E w
  | Modify f k => extends w (f w) /\ wp k Q E (f w)
  | Await rq k =>
      registry_ok w /\
      forall r w', registry_ok w' -> extends w w' -> wp (k r) Q E w'
  end.

(** A task that only has to leave the registry in order. *)
Definition keeps_registry {R} (c : Async R) (w : World) : Prop :=
  wp c (fun _ w' => registry_ok w') (fun _ w' => registry_ok w') w.

Definition task_ok (w : World) (t : Task) : Prop :=
  match t with
  | ToolCall rq k =>
      forall r w', registry_ok w' -> extends w w' -> keeps_registry (k r) w'
  | Background rq k =>
      forall r w', registry_ok w' -> extends w w' -> keeps_registry (k r) w'
  end.

(** The entries of a registry snapshot keep pointing at objects that carry
    their key. *)
Definition snapshot_ok (entries : list (jsstr * TxRef)) (w : World) : Prop :=
  forall id transaction,
    (id, transaction) ∈ entries ->
    exists o, objects w !! transaction = Some o /\ tx_id o = id.

(** The registry is in order and every suspended task will keep it so. *)
Definition system_ok (s : System) : Prop :=
  registry_ok (world s) /\ Forall (task_ok (world s)) (tasks s).

(** ** What the monitor owes to an entry *)

(** The entries a sweep at time [now] forces: not released, older than
    the timeout, still [active]. *)
Definition overdue (timeout now : Z) (o : TrackedTransaction) : bool :=
  negb (released o) && (now - startTime o >? timeout) && bool_decide (state o = active).

(** What the monitor's task does once its [ROLLBACK] has settled, in the
    state [w'] it then finds: unless the flag is set by then, it sets it and
    releases the connection; in either case it removes the entry. *)
Definition forced_outcome (id : jsstr) (transaction : TxRef) (w' : World) : World :=
  match objects w' !! transaction with
  | Some o' =>
      if released o' then removeTransaction id w'
      else removeTransaction id
             (record_event (EvRelease (client o')) (set_released transaction w'))
  | None => removeTransaction id w'
  end.

(** ** Sample inputs *)

Module Sample.

Definition up : jsstr -> jsstr := JsString.toUpperCaseAscii.

(** The database answers a statement: command tag and row count. *)
Definition answered (cmd : string) (n : Z) : Response :=
  Resolved (mkQueryResult (JsString.lit cmd) n []).

(** The pool hands out a connection. *)
Definition leased : Response := Resolved (mkQueryResult [] 0 []).

Definition boom : Error := mkError (JsString.lit "division by zero").
Definition gone : Error := mkError (JsString.lit "Connection terminated unexpectedly").

Definition suffix (n : nat) : jsstr := JsString.lit "k3x" ++ JsString.ofZ (Z.of_nat n).

(** An empty process at time 1000. *)
Definition w0 : World := emptyWorld 1000 suffix.

(** A configuration that admits one open transaction. *)
Definition cfg1 : Config :=
  {| transactionTimeoutMs := 100; monitorIntervalMs := 50;
     enableTransactionMonitor := true; maxConcurrentTransactions := 1 |}.

Definition insert_sql : jsstr := JsString.lit "INSERT INTO t VALUES (1)".
Definition select_sql : jsstr := JsString.lit "SELECT 1/0".

(** The identifier the first write of [w0] gets. *)
Definition id0 : jsstr := generateTransactionId 1000 (suffix 0).

(** [w0] after one write was registered on lease 0. *)
Definition w1 : World := addTransaction id0 0%nat insert_sql w0.

(** Two writes registered, on leases 0 and 1. *)
Definition id1 : jsstr := generateTransactionId 1010 (suffix 1).
Definition w2 : World := addTransaction id1 1%nat insert_sql (tick 10 w1).

(** One write, registered through the tool. *)
Definition write_once : list Occurrence :=
  [Invoke (execute_dml_call insert_sql);
   Settle 0 (leased);           (* the pool leases a connection *)
   Settle 0 (answered "BEGIN" 0);
   Settle 0 (answered "INSERT" 1)].

Definition registered : System :=
  play up defaultConfig write_once (initial 1000 suffix).

(** The write outlives the timeout; the monitor starts its rollback; the
    caller commits while that rollback is in flight; the rollback is answered
    first, then the commit. *)
Definition race : list Occurrence :=
  write_once ++
  [Elapse 20000;
   MonitorTimer;
   Invoke (execute_commit_call id0);
   Settle 0 (answered "ROLLBACK" 0);   (* the monitor's task *)
   Settle 0 (answered "COMMIT" 0)].    (* the commit handler *)

Definition raced : System :=
  play up defaultConfig race (initial 1000 suffix).

End Sample.

(** * The schema tools and the rest of the servers *)

(** ** The statements of [handleListTables] and [handleDescribeTable]

    The template literals of the source; the names are spliced in as they
    come. *)

Definition listTablesQuery (schemaName : jsstr) : jsstr :=
  JsString.lit "
      SELECT 
        t.table_name, 
        pg_catalog.obj_description(pgc.oid, 'pg_class') as table_description,
        (SELECT COUNT("
  ++ [42%N]
  ++ JsString.lit ") FROM information_schema.columns c WHERE c.table_name = t.table_name) as column_count
      FROM 
        information_schema.tables t
      JOIN 
        pg_catalog.pg_class pgc ON t.table_name = pgc.relname
      WHERE 
        t.table_schema = '"
  ++ schemaName
  ++ JsString.lit "'
        AND t.table_type = 'BASE TABLE'
      ORDER BY 
        t.table_name
    ".

Definition columnsQuery (tableName schemaName : jsstr) : jsstr :=
  JsString.lit "
      SELECT 
        column_name, 
        data_type, 
        character_maximum_length,
        column_default,
        is_nullable,
        col_description(pg_class.oid, columns.ordinal_position) as column_description
      FROM 
        information_schema.columns
      JOIN 
        pg_class ON pg_class.relname = columns.table_name
      WHERE 
        columns.table_name = '"
  ++ tableName
  ++ JsString.lit "'
        AND columns.table_schema = '"
  ++ schemaName
  ++ JsString.lit "'
      ORDER BY 
        ordinal_position
    ".

Definition primaryKeyQuery (tableName schemaName : jsstr) : jsstr :=
  JsString.lit "
      SELECT 
        a.attname as column_name
      FROM 
        pg_index i
        JOIN pg_attribute a ON a.attrelid = i.indrelid AND a.attnum = ANY(i.indkey)
      WHERE 
        i.indrelid = '"
  ++ schemaName
  ++ JsString.lit "."
  ++ tableName
  ++ JsString.lit "'::regclass
        AND i.indisprimary
    ".

Definition foreignKeyQuery (tableName schemaName : jsstr) : jsstr :=
  JsString.lit "
      SELECT
        kcu.column_name,
        ccu.table_name AS foreign_table_name,
        ccu.column_name AS foreign_column_name
      FROM
        information_schema.table_constraints AS tc
        JOIN information_schema.key_column_usage AS kcu
          ON tc.constraint_name = kcu.constraint_name
          AND tc.table_schema = kcu.table_schema
        JOIN information_schema.constraint_column_usage AS ccu
          ON ccu.constraint_name = tc.constraint_name
          AND ccu.table_schema = tc.table_schema
      WHERE tc.constraint_type = 'FOREIGN KEY' AND tc.table_name = '"
  ++ tableName
  ++ JsString.lit "' AND tc.table_schema = '"
  ++ schemaName
  ++ JsString.lit "'
    ".

Definition tableDescriptionQuery (tableName schemaName : jsstr) : jsstr :=
  JsString.lit "
      SELECT pg_catalog.obj_description(pgc.oid, 'pg_class') as table_description
      FROM pg_catalog.pg_class pgc
      WHERE pgc.relname = '"
  ++ tableName
  ++ JsString.lit "' AND pgc.relnamespace = (SELECT oid FROM pg_namespace WHERE nspname = '"
  ++ schemaName
  ++ JsString.lit "')
    ".

Definition rowCountQuery (tableName schemaName : jsstr) : jsstr :=
  JsString.lit "
      SELECT reltuples::bigint AS approximate_row_count
      FROM pg_class
      WHERE relname = '"
  ++ tableName
  ++ JsString.lit "' AND relnamespace = (SELECT oid FROM pg_namespace WHERE nspname = '"
  ++ schemaName
  ++ JsString.lit "')
    ".

Definition indexesQuery (tableName schemaName : jsstr) : jsstr :=
  JsString.lit "
      SELECT
        i.relname AS index_name,
        am.amname AS index_type,
        array_agg(a.attname) AS column_names,
        ix.indisunique AS is_unique
      FROM
        pg_class t,
        pg_class i,
        pg_index ix,
        pg_attribute a,
        pg_am am
      WHERE
        t.oid = ix.indrelid
        AND i.oid = ix.indexrelid
        AND a.attrelid = t.oid
        AND a.attnum = ANY(ix.indkey)
        AND i.relam = am.oid
        AND t.relkind = 'r'
        AND t.relname = '"
  ++ tableName
  ++ JsString.lit "' AND t.relnamespace = (SELECT oid FROM pg_namespace WHERE nspname = '"
  ++ schemaName
  ++ JsString.lit "')
      GROUP BY
        i.relname,
        am.amname,
        ix.indisunique
      ORDER BY
        i.relname
    ".


(** ** [handleListTables] and [handleDescribeTable] *)

Definition public : jsstr := JsString.lit "public".

(** The text of the result is [JSON.stringify(result.rows)]. *)
Definition handleListTables (schemaName : jsstr) : Async (list (list jsstr)) :=
  cl ← pool_connect;
  try_finally
    (result ← client_query cl (listTablesQuery schemaName);
     Ret (rows result))
    (safelyReleaseClient cl).

(** The six results the JSON object of [handleDescribeTable] is built from. *)
Record TableDescription : Type := mkTableDescription {
  schema_name : jsstr;
  table_name : jsstr;
  tableDescResult : QueryResult;
  rowCountResult : QueryResult;
  columnsResult : QueryResult;
  pkResult : QueryResult;
  fkResult : QueryResult;
  indexesResult : QueryResult
}.

Inductive DescribeTableResult : Type :=
| NoTableNameProvided
| Described (d : TableDescription).

Definition handleDescribeTable (tableName schemaName : jsstr) : Async DescribeTableResult :=
  if JsString.falsy tableName then Ret NoTableNameProvided
  else
    cl ← pool_connect;
    try_finally
      (columnsResult ← client_query cl (columnsQuery tableName schemaName);
       pkResult ← client_query cl (primaryKeyQuery tableName schemaName);
       fkResult ← client_query cl (foreignKeyQuery tableName schemaName);
       tableDescResult ← client_query cl (tableDescriptionQuery tableName schemaName);
       rowCountResult ← client_query cl (rowCountQuery tableName schemaName);
       indexesResult ← client_query cl (indexesQuery tableName schemaName);
       Ret (Described
              {| schema_name := schemaName;
                 table_name := tableName;
                 tableDescResult := tableDescResult;
                 rowCountResult := rowCountResult;
                 columnsResult := columnsResult;
                 pkResult := pkResult;
                 fkResult := fkResult;
                 indexesResult := indexesResult |}))
      (safelyReleaseClient cl).

(** ** The request handler of the [Server]-based entry point

    [server.setRequestHandler(CallToolRequestSchema, ...)]: a [switch] on the
    tool name inside one [try]/[catch]. A missing argument is the empty
    string here; every handler tests its argument with [!] first. *)

Record ToolArguments : Type := mkToolArguments {
  arg_sql : jsstr;
  arg_transaction_id : jsstr;
  arg_table_name : jsstr
}.

Inductive ServerReply : Type :=
| ToolReply (r : ToolResult)
| TablesReply (rows : list (list jsstr))
| DescribeReply (r : DescribeTableResult)
| ErrorReply (text : jsstr).

Section CallTool.

Variable toUpperCase : jsstr -> jsstr.
Variable cfg : Config.

Definition callTool (name : jsstr) (arguments : ToolArguments) : Async ServerReply :=
  try_catch
    (if decide (name = JsString.lit "execute_query") then
       r ← handleExecuteQuery toUpperCase (arg_sql arguments);
       Ret (ToolReply r)
     else if decide (name = JsString.lit "execute_dml_ddl_dcl_tcl") then
       Get (fun w =>
         if transactionCount w >=? maxConcurrentTransactions cfg then
           Ret (ToolReply (TooManyTransactions (maxConcurrentTransactions cfg)))
         else
           r ← handleExecuteDML (arg_sql arguments) (transactionTimeoutMs cfg);
           Ret (ToolReply r))
     else if decide (name = JsString.lit "execute_commit") then
       r ← handleExecuteCommit (arg_transaction_id arguments);
       Ret (ToolReply r)
     else if decide (name = JsString.lit "list_tables") then
       rows ← handleListTables public;
       Ret (TablesReply rows)
     else if decide (name = JsString.lit "describe_table") then
       r ← handleDescribeTable (arg_table_name arguments) public;
       Ret (DescribeReply r)
     else
       Throw (mkError (JsString.lit "Unknown tool: " ++ name)))
    (fun error => Ret (ErrorReply (JsString.lit "Error: " ++ message error))).

End CallTool.

(** ** [TransactionManager.startMonitor] and [stopMonitor] *)

(** The manager's [monitorInterval] field and the intervals the runtime has
    running; [setInterval] hands out the next handle. *)
Record Timers : Type := mkTimers {
  monitorInterval : option nat;
  running : list nat;
  next_handle : nat
}.

(** The state the constructor leaves. *)
Definition noTimers : Timers :=
  {| monitorInterval := None; running := []; next_handle := 0 |}.

Definition startMonitor (monitorEnabled : bool) (t : Timers) : Timers :=
  if monitorEnabled && negb (bool_decide (is_Some (monitorInterval t))) then
    {| monitorInterval := Some (next_handle t);
       running := running t ++ [next_handle t];
       next_handle := S (next_handle t) |}
  else t.

Definition stopMonitor (t : Timers) : Timers :=
  match monitorInterval t with
  | Some h =>
      {| monitorInterval := None;
         running := filter (fun h' => h' <> h) (running t);
         next_handle := next_handle t |}
  | None => t
  end.

Inductive MonitorCall : Type := StartMonitor | StopMonitor.

Definition monitor_call (monitorEnabled : bool) (t : Timers) (c : MonitorCall) : Timers :=
  match c with
  | StartMonitor => startMonitor monitorEnabled t
  | StopMonitor => stopMonitor t
  end.

(** ** Observations used for the handlers *)

(** The event is a statement sent on the connection [c]. *)
Definition sent_on (c : PoolClient) (e : PoolEvent) : Prop :=
  exists text, e = EvQuery c text.

(** The task waits for a promise. *)
Definition is_blocked {R} (s : Status R) : bool :=
  match s with Blocked _ _ => true | _ => false end.

(** What the process state is once a commit or rollback has let go of a
    transaction: the statement [text] was sent and answered after [d]; the
    flag is set, the connection given back, the entry removed. *)
Definition resolved_with (text : jsstr) (id : jsstr) (transaction : TxRef)
    (o : TrackedTransaction) (d : Z) (w : World) : World :=
  removeTransaction id
    (record_event (EvRelease (client o))
       (set_released transaction (tick d (record_event (EvQuery (client o) text) w)))).

(** The statements of [handleDescribeTable], in the order it sends them. *)
Definition describeTableQueries (tableName schemaName : jsstr) : list jsstr :=
  [columnsQuery tableName schemaName;
   primaryKeyQuery tableName schemaName;
   foreignKeyQuery tableName schemaName;
   tableDescriptionQuery tableName schemaName;
   rowCountQuery tableName schemaName;
   indexesQuery tableName schemaName].

(** Promises that all resolve. *)
Definition resolved_all (answers : list (Z * QueryResult)) : list (Z * Response) :=
  (fun a => (a.1, Resolved a.2)) <$> answers.

(** The [case] labels of the [switch] in the request handler. *)
Definition known_tools : list jsstr :=
  [JsString.lit "execute_query"; JsString.lit "execute_dml_ddl_dcl_tcl";
   JsString.lit "execute_commit"; JsString.lit "list_tables"; JsString.lit "describe_table"].

(** The manager's field names the one interval that runs, if any, and none
    runs when the monitor is disabled. *)
Definition timers_ok (monitorEnabled : bool) (t : Timers) : Prop :=
  running t = match monitorInterval t with Some h => [h] | None => [] end /\
  (monitorEnabled = false -> monitorInterval t = None).

(** * Properties *)

(** ** Strings *)

Module JsStringFacts.
Import JsString.

Lemma startsWith_BeginsWith (p s : t) :
  startsWith p s = true <-> BeginsWith p s.
Proof.
  revert s. induction p as [|a p IH]; intros s; simpl.
  - split; [intros _; by exists s | done].
  - destruct s as [|b s].
    + split; [done | intros [rest H]; discriminate H].
    + rewrite andb_true_iff, N.eqb_eq, IH. split.
      * intros [-> [rest ->]]. by exists rest.
      * intros [rest H]. injection H as -> ->. split; [done | by exists rest].
Qed.

Lemma includes_Contains (p s : t) :
  includes p s = true <-> Contains p s.
Proof.
  induction s as [|b s IH].
  - simpl. rewrite orb_false_r, startsWith_BeginsWith. split.
    + intros [rest H]. exists [], rest. done.
    + intros [pre [post H]]. destruct pre; simpl in H.
      * by exists post.
      * discriminate H.
  - cbn [includes]. rewrite orb_true_iff, IH, startsWith_BeginsWith. split.
    + intros [[rest H] | [pre [post H]]].
      * exists [], rest. done.
      * exists (b :: pre), post. by rewrite H.
    + intros [pre [post H]]. destruct pre as [|b' pre]; simpl in H.
      * left. by exists post.
      * right. injection H as -> H. by exists pre, post.
Qed.

Lemma trimStart_split (s : t) :
  exists pre, s = pre ++ trimStart s /\ Forall (fun u => isWhiteSpace u = true) pre.
Proof.
  induction s as [|u s [pre [H1 H2]]]; simpl.
  - by exists [].
  - destruct (isWhiteSpace u) eqn:E.
    + exists (u :: pre). split; [by rewrite H1 at 1 | by constructor].
    + by exists [].
Qed.

Lemma trimStart_head (s : t) (u : N) (s' : t) :
  trimStart s = u :: s' -> isWhiteSpace u = false.
Proof.
  induction s as [|v s IH]; simpl; [done|].
  destruct (isWhiteSpace v) eqn:E; [done|].
  intros H. injection H as -> _. done.
Qed.

(** [trim] removes a run of white space at each end, and nothing else. *)
Lemma trim_split (s : t) :
  exists pre post,
    s = pre ++ trim s ++ post /\
    Forall (fun u => isWhiteSpace u = true) pre /\
    Forall (fun u => isWhiteSpace u = true) post.
Proof.
  destruct (trimStart_split s) as [pre [H1 H2]].
  destruct (trimStart_split (rev (trimStart s))) as [post [H3 H4]].
  exists pre, (rev post). split; [|split; [done | by apply Forall_rev]].
  unfold trim, trimEnd. rewrite <- rev_app_distr, <- H3, rev_involutive. done.
Qed.

Lemma trim_ends (s : t) :
  (forall u s', trim s = u :: s' -> isWhiteSpace u = false) /\
  (forall u s', trim s = s' ++ [u] -> isWhiteSpace u = false).
Proof.
  assert (Hend : forall u s', trim s = s' ++ [u] -> isWhiteSpace u = false).
  { intros u s' H. unfold trim, trimEnd in H.
    apply (f_equal (@rev N)) in H. rewrite rev_involutive, rev_app_distr in H.
    simpl in H. by apply trimStart_head in H. }
  split; [|done].
  intros u s' H.
  destruct (trimStart_split (rev (trimStart s))) as [post [H3 H4]].
  apply (f_equal (@rev N)) in H3. rewrite rev_involutive, rev_app_distr in H3.
  fold (trimEnd (trimStart s)) in H3. fold (trim s) in H3.
  rewrite H in H3. simpl in H3.
  destruct (trimStart s) as [|v r] eqn:E; [discriminate H3|].
  injection H3 as -> _. by apply trimStart_head in E.
Qed.

End JsStringFacts.

(** ** The statement classifier *)

(** C8: for every SQL string, [isReadOnlyQuery] answers [true] exactly
    when the trimmed, upper-cased statement begins with [SELECT], [WITH] or
    [EXPLAIN], or begins with [SHOW] and contains no [CREATE]. It is a
    function of the string alone: it neither reads nor changes the process
    state. *)
Theorem isReadOnlyQuery_policy (toUpperCase : jsstr -> jsstr) (s : jsstr) :
  isReadOnlyQuery toUpperCase s = true <->
  let normalized := toUpperCase (JsString.trim s) in
  JsString.BeginsWith SELECT normalized \/
  JsString.BeginsWith WITH normalized \/
  JsString.BeginsWith EXPLAIN normalized \/
  (JsString.BeginsWith SHOW normalized /\ ~ JsString.Contains CREATE normalized).
Proof.
  unfold isReadOnlyQuery. cbv zeta.
  rewrite !orb_true_iff, andb_true_iff, negb_true_iff.
  rewrite !JsStringFacts.startsWith_BeginsWith.
  rewrite <- not_true_iff_false, JsStringFacts.includes_Contains.
  tauto.
Qed.

(** A write behind a [WITH] clause passes as read-only; [SHOW] does not when
    [CREATE] occurs anywhere in the statement; leading white space and case
    do not matter. *)
Example classifier_samples :
  isReadOnlyQuery Sample.up
    (JsString.lit "with moved as (delete from t returning *) insert into u select * from moved")
  = true /\
  isReadOnlyQuery Sample.up (JsString.lit "  show create table t") = false /\
  isReadOnlyQuery Sample.up (JsString.lit "show server_version") = true /\
  isReadOnlyQuery Sample.up (9%N :: 10%N :: 160%N :: JsString.lit "Explain select 1") = true /\
  isReadOnlyQuery Sample.up Sample.insert_sql = false.
Proof. repeat split. Qed.

(** ** The registry as a [Map] *)

Module JsMapFacts.
Import JsMap.

Section Facts.
Context {V : Type}.
Implicit Types (m : list (jsstr * V)) (k : jsstr) (v : V).

Lemma get_set_eq m k v : get k (set k v m) = Some v.
Proof.
  induction m as [|[k' v'] m IH]; simpl.
  - by rewrite decide_True.
  - destruct (decide (k' = k)); simpl.
    + by rewrite decide_True.
    + by rewrite decide_False.
Qed.

Lemma get_set_ne m k k' v : k' <> k -> get k' (set k v m) = get k' m.
Proof.
  intros Hne. induction m as [|[k0 v0] m IH]; simpl.
  - by rewrite decide_False.
  - destruct (decide (k0 = k)) as [->|]; simpl.
    + by rewrite !decide_False.
    + destruct (decide (k0 = k')); done.
Qed.

Lemma get_delete_eq m k : get k (delete k m) = None.
Proof.
  unfold delete. induction m as [|[k' v'] m IH]; simpl; [done|].
  rewrite filter_cons. simpl. destruct (decide (k' <> k)); simpl; [|done].
  by rewrite decide_False.
Qed.

Lemma get_delete_ne m k k' : k' <> k -> get k' (delete k m) = get k' m.
Proof.
  intros Hne. unfold delete. induction m as [|[k0 v0] m IH]; simpl; [done|].
  rewrite filter_cons. simpl. destruct (decide (k0 <> k)) as [|Heq]; simpl.
  - by rewrite IH.
  - apply dec_stable in Heq. subst k0. by rewrite decide_False.
Qed.

Lemma get_Some_elem m k v : get k m = Some v -> (k, v) ∈ m.
Proof.
  induction m as [|[k' v'] m IH]; simpl; [done|].
  destruct (decide (k' = k)) as [->|].
  - intros [= ->]. left.
  - intros H. right. auto.
Qed.

Lemma elem_delete m k kv : kv ∈ delete k m <-> kv ∈ m /\ kv.1 <> k.
Proof. unfold delete. rewrite list_elem_of_filter. tauto. Qed.

Lemma elem_set m k v kv : kv ∈ set k v m -> kv = (k, v) \/ kv ∈ m.
Proof.
  induction m as [|[k' v'] m IH]; simpl.
  - rewrite list_elem_of_singleton. auto.
  - destruct (decide (k' = k)) as [->|Hne]; rewrite !elem_of_cons.
    + intros [->|H]; auto.
    + intros [->|H]; [auto|]. destruct (IH H); auto.
Qed.

Lemma keys_set m k v :
  (fst <$> set k v m) = (fst <$> m) \/
  ((k ∉ (fst <$> m)) /\ (fst <$> set k v m) = (fst <$> m) ++ [k]).
Proof.
  induction m as [|[k' v'] m IH]; cbn [set].
  - right. split; [apply not_elem_of_nil | done].
  - destruct (decide (k' = k)) as [->|Hne]; rewrite !fmap_cons; cbn [fst]; [by left|].
    destruct IH as [IH|[Hk IH]]; rewrite IH; [by left|].
    right. split; [|done]. rewrite not_elem_of_cons. auto.
Qed.

Lemma NoDup_keys_set m k v : NoDup (fst <$> m) -> NoDup (fst <$> set k v m).
Proof.
  intros Hm. destruct (keys_set m k v) as [->|[Hk ->]]; [done|].
  apply list.NoDup_app. split; [done|]. split; [|apply NoDup_singleton].
  intros x Hx. rewrite list_elem_of_singleton. by intros ->.
Qed.

Lemma NoDup_keys_delete m k : NoDup (fst <$> m) -> NoDup (fst <$> delete k m).
Proof.
  unfold delete. induction m as [|[k' v'] m IH]; [done|].
  rewrite fmap_cons, list.NoDup_cons. cbn [fst]. intros [Hk Hm].
  rewrite filter_cons. cbn [fst]. destruct (decide (k' <> k)); [|auto].
  rewrite fmap_cons. cbn [fst]. apply list.NoDup_cons. split; [|auto].
  intros Hin. apply Hk. apply list_elem_of_fmap in Hin as [[k0 v0] [-> Hin]].
  apply list_elem_of_filter in Hin as [_ Hin]. cbn [fst].
  apply list_elem_of_fmap. by exists (k0, v0).
Qed.

Lemma has_get m k : has k m = true <-> exists v, get k m = Some v.
Proof.
  unfold has. destruct (get k m); split; try done; eauto. by intros [v H].
Qed.

Lemma has_false_get m k : has k m = false <-> get k m = None.
Proof. unfold has. destruct (get k m); split; done. Qed.

Lemma size_set_new m k v : has k m = false -> size (set k v m) = size m + 1.
Proof.
  unfold size, has. induction m as [|[k' v'] m IH]; simpl; [done|].
  destruct (decide (k' = k)); [done|]. intros H. specialize (IH H). simpl. lia.
Qed.

Lemma size_delete_lt m k : has k m = true -> size (delete k m) < size m.
Proof.
  unfold size, delete, has. induction m as [|[k' v'] m IH]; simpl; [done|].
  rewrite filter_cons. simpl. destruct (decide (k' = k)) as [->|Hne].
  - intros _. rewrite decide_False by tauto.
    pose proof (length_filter (fun kv : jsstr * V => kv.1 <> k) m). lia.
  - intros H. rewrite decide_True by done. simpl. specialize (IH H). lia.
Qed.

End Facts.
End JsMapFacts.

(** ** Running the handlers *)

(** [client.release()] may throw, [safelyReleaseClient] never does; the
    case split is the same wherever a release is reached. *)
Ltac release_cases :=
  match goal with
  | |- context [decide (EvRelease ?c ∈ ?tr)] => destruct (decide (EvRelease c ∈ tr))
  end.

Ltac run_handler := repeat (simpl; try release_cases).

Lemma has_getTransaction (id : jsstr) (w : World) (transaction : TxRef) :
  getTransaction id w = Some transaction -> hasTransaction id w = true.
Proof.
  unfold hasTransaction, getTransaction. intros H.
  apply JsMapFacts.has_get. eauto.
Qed.

Lemma hasTransaction_removeTransaction (id : jsstr) (w : World) :
  hasTransaction id (removeTransaction id w) = false.
Proof.
  unfold hasTransaction, removeTransaction. simpl.
  apply JsMapFacts.has_false_get, JsMapFacts.get_delete_eq.
Qed.

(** ** Registration *)

(** C10: a newly registered transaction is stored under the supplied
    identifier with [state = 'active'], [released = false], the current time
    as [startTime], the supplied identifier and client, and as [sql] a prefix
    of the submitted statement of at most 100 code units. *)
Theorem addTransaction_initial (id : jsstr) (cl : PoolClient) (statement : jsstr) (w : World) :
  exists (transaction : TxRef) (o : TrackedTransaction),
    getTransaction id (addTransaction id cl statement w) = Some transaction /\
    objects (addTransaction id cl statement w) !! transaction = Some o /\
    objects w !! transaction = None /\
    tx_id o = id /\
    client o = cl /\
    state o = active /\
    released o = false /\
    startTime o = clock w /\
    sql o `prefix_of` statement /\
    (length (sql o) <= 100)%nat.
Proof.
  exists (length (objects w)),
    {| tx_id := id; client := cl; startTime := clock w;
       sql := JsString.substring0 100 statement;
       state := active; released := false |}.
  split_and!.
  - unfold getTransaction, addTransaction. simpl. apply JsMapFacts.get_set_eq.
  - unfold addTransaction. simpl. apply list_lookup_middle. done.
  - apply lookup_ge_None. done.
  - done.
  - done.
  - done.
  - done.
  - done.
  - cbn [sql]. exact (prefix_take statement 100).
  - cbn [sql]. unfold JsString.substring0. rewrite length_take. apply Nat.le_min_l.
Qed.

(** ** Explicit commit and rollback *)

(** C2, at the empty identifier: it is absent from the registry, and
    commit and rollback answer it with the missing-identifier error, not with
    [TransactionNotFound]. *)
Lemma commit_rollback_empty_identifier :
  hasTransaction [] Sample.w1 = false /\
  run (handleExecuteCommit []) Sample.w1 []
    = (Sample.w1, Finished NoTransactionIdProvided, []) /\
  run (handleExecuteRollback []) Sample.w1 []
    = (Sample.w1, Finished NoTransactionIdProvided, []) /\
  NoTransactionIdProvided <> TransactionNotFound [].
Proof. repeat split; done. Qed.

Lemma handleExecuteCommit_absent (id : jsstr) (w : World) settle :
  JsString.falsy id = false ->
  hasTransaction id w = false ->
  run (handleExecuteCommit id) w settle = (w, Finished (TransactionNotFound id), settle).
Proof. intros Hid Hno. unfold handleExecuteCommit. rewrite Hid. simpl. by rewrite Hno. Qed.

Lemma handleExecuteRollback_absent (id : jsstr) (w : World) settle :
  JsString.falsy id = false ->
  hasTransaction id w = false ->
  run (handleExecuteRollback id) w settle = (w, Finished (TransactionNotFound id), settle).
Proof. intros Hid Hno. unfold handleExecuteRollback. rewrite Hid. simpl. by rewrite Hno. Qed.

Lemma handleExecuteCommit_stale (id : jsstr) (w : World) settle transaction o :
  JsString.falsy id = false ->
  getTransaction id w = Some transaction ->
  objects w !! transaction = Some o ->
  released o = true ->
  run (handleExecuteCommit id) w settle
  = (removeTransaction id w, Finished (AlreadyReleased id), settle).
Proof.
  intros Hid Hget Ho Hrel. unfold handleExecuteCommit. rewrite Hid. simpl.
  rewrite (has_getTransaction _ _ _ Hget). simpl. rewrite Hget. simpl.
  rewrite Ho. simpl. by rewrite Hrel.
Qed.

Lemma handleExecuteRollback_stale (id : jsstr) (w : World) settle transaction o :
  JsString.falsy id = false ->
  getTransaction id w = Some transaction ->
  objects w !! transaction = Some o ->
  released o = true ->
  run (handleExecuteRollback id) w settle
  = (removeTransaction id w, Finished (AlreadyReleased id), settle).
Proof.
  intros Hid Hget Ho Hrel. unfold handleExecuteRollback. rewrite Hid. simpl.
  rewrite (has_getTransaction _ _ _ Hget). simpl. rewrite Hget. simpl.
  rewrite Ho. simpl. by rewrite Hrel.
Qed.

(** What a commit that reports success has done. *)
Lemma handleExecuteCommit_committed (id : jsstr) (w w1 : World) settle rest res :
  run (handleExecuteCommit id) w settle = (w1, Finished (Committed res), rest) ->
  exists transaction o d r,
    JsString.falsy id = false /\
    res = id /\
    getTransaction id w = Some transaction /\
    objects w !! transaction = Some o /\
    released o = false /\
    settle = (d, Resolved r) :: rest /\
    w1 = removeTransaction id
           (record_event (EvRelease (client o))
              (set_released transaction
                 (tick d (record_event (EvQuery (client o) COMMIT) w)))).
Proof.
  unfold handleExecuteCommit. destruct (JsString.falsy id) eqn:Hid; [done|].
  simpl. destruct (hasTransaction id w) eqn:Hhas; simpl; [|done].
  destruct (getTransaction id w) as [transaction|] eqn:Hget; simpl; [|done].
  destruct (objects w !! transaction) as [o|] eqn:Ho; simpl; [|done].
  destruct (released o) eqn:Hrel; simpl; [done|].
  destruct settle as [|[d [r|e]] settle]; simpl; [done| |].
  - release_cases; simpl; intros [= <- <- <-]; by exists transaction, o, d, r.
  - destruct settle as [|[d' [r'|e']] settle]; simpl; [done| |];
      release_cases; simpl; done.
Qed.

(** What a rollback that reports success has done. *)
Lemma handleExecuteRollback_rolledBack (id : jsstr) (w w1 : World) settle rest res :
  run (handleExecuteRollback id) w settle = (w1, Finished (RolledBack res), rest) ->
  exists transaction o d r,
    JsString.falsy id = false /\
    res = id /\
    getTransaction id w = Some transaction /\
    objects w !! transaction = Some o /\
    released o = false /\
    settle = (d, Resolved r) :: rest /\
    w1 = removeTransaction id
           (record_event (EvRelease (client o))
              (set_released transaction
                 (tick d (record_event (EvQuery (client o) ROLLBACK) w)))).
Proof.
  unfold handleExecuteRollback. destruct (JsString.falsy id) eqn:Hid; [done|].
  simpl. destruct (hasTransaction id w) eqn:Hhas; simpl; [|done].
  destruct (getTransaction id w) as [transaction|] eqn:Hget; simpl; [|done].
  destruct (objects w !! transaction) as [o|] eqn:Ho; simpl; [|done].
  destruct (released o) eqn:Hrel; simpl; [done|].
  destruct settle as [|[d [r|e]] settle]; simpl; [done| |].
  - release_cases; simpl; intros [= <- <- <-]; by exists transaction, o, d, r.
  - release_cases; simpl; done.
Qed.

Lemma handleExecuteCommit_missing_identifier (id : jsstr) (w : World) settle :
  JsString.falsy id = true ->
  run (handleExecuteCommit id) w settle = (w, Finished NoTransactionIdProvided, settle).
Proof. intros Hid. unfold handleExecuteCommit. by rewrite Hid. Qed.

Lemma handleExecuteRollback_missing_identifier (id : jsstr) (w : World) settle :
  JsString.falsy id = true ->
  run (handleExecuteRollback id) w settle = (w, Finished NoTransactionIdProvided, settle).
Proof. intros Hid. unfold handleExecuteRollback. by rewrite Hid. Qed.

(** C2, as the code has it: for every non-empty transaction identifier,
    commit and rollback fail with [TransactionNotFound] when the identifier
    is absent from the registry; they fail with [AlreadyReleased] and remove
    the entry when its [released] flag is set; and after a call that reported
    success a second call fails with [TransactionNotFound] without touching
    the process state: the first call sent one [COMMIT] (or [ROLLBACK]) and
    released the connection once, the second sends nothing and releases
    nothing. The empty identifier is answered with the missing-identifier
    error, and the registry is not looked at. *)
Theorem commit_rollback_idempotent (id : jsstr) (w : World) (settle : list (Z * Response)) :
  (JsString.falsy id = true ->
     run (handleExecuteCommit id) w settle
       = (w, Finished NoTransactionIdProvided, settle) /\
     run (handleExecuteRollback id) w settle
       = (w, Finished NoTransactionIdProvided, settle)) /\
  (JsString.falsy id = false ->
     (hasTransaction id w = false ->
        run (handleExecuteCommit id) w settle
          = (w, Finished (TransactionNotFound id), settle) /\
        run (handleExecuteRollback id) w settle
          = (w, Finished (TransactionNotFound id), settle)) /\
     (forall transaction o,
        getTransaction id w = Some transaction ->
        objects w !! transaction = Some o ->
        released o = true ->
        run (handleExecuteCommit id) w settle
          = (removeTransaction id w, Finished (AlreadyReleased id), settle) /\
        run (handleExecuteRollback id) w settle
          = (removeTransaction id w, Finished (AlreadyReleased id), settle) /\
        hasTransaction id (removeTransaction id w) = false) /\
     (forall w1 rest,
        run (handleExecuteCommit id) w settle = (w1, Finished (Committed id), rest) \/
        run (handleExecuteRollback id) w settle = (w1, Finished (RolledBack id), rest) ->
        (exists c text,
           (text = COMMIT \/ text = ROLLBACK) /\
           trace w1 = trace w ++ [EvQuery c text; EvRelease c]) /\
        forall again,
          run (handleExecuteCommit id) w1 again
            = (w1, Finished (TransactionNotFound id), again) /\
          run (handleExecuteRollback id) w1 again
            = (w1, Finished (TransactionNotFound id), again))).
Proof.
  split.
  { intros Hid. split.
    - by apply handleExecuteCommit_missing_identifier.
    - by apply handleExecuteRollback_missing_identifier. }
  intros Hid. split_and!.
  - intros Hno. split.
    + by apply handleExecuteCommit_absent.
    + by apply handleExecuteRollback_absent.
  - intros transaction o Hget Ho Hrel. split_and!.
    + by eapply handleExecuteCommit_stale.
    + by eapply handleExecuteRollback_stale.
    + apply hasTransaction_removeTransaction.
  - intros w1 rest Hfirst.
    assert (exists c text w0,
      (text = COMMIT \/ text = ROLLBACK) /\
      trace w0 = trace w ++ [EvQuery c text; EvRelease c] /\
      w1 = removeTransaction id w0) as (c & text & w0 & Htext & Htrace & ->).
    { destruct Hfirst as [H|H].
      - apply handleExecuteCommit_committed in H
          as (transaction & o & d & r & _ & _ & _ & _ & _ & _ & ->).
        eexists (client o), COMMIT, _. split_and!; [by left| |done].
        simpl. by rewrite <- app_assoc.
      - apply handleExecuteRollback_rolledBack in H
          as (transaction & o & d & r & _ & _ & _ & _ & _ & _ & ->).
        eexists (client o), ROLLBACK, _. split_and!; [by right| |done].
        simpl. by rewrite <- app_assoc. }
    split; [by exists c, text|].
    intros again. split.
    + apply handleExecuteCommit_absent; [done|]. apply hasTransaction_removeTransaction.
    + apply handleExecuteRollback_absent; [done|]. apply hasTransaction_removeTransaction.
Qed.

Lemma commit_rollback_idempotent_witness :
  exists w',
    run (handleExecuteCommit Sample.id0) Sample.w1 [(5, Sample.answered "COMMIT" 0)]
      = (w', Finished (Committed Sample.id0), []) /\
    run (handleExecuteCommit Sample.id0) w' [(5, Sample.answered "COMMIT" 0)]
      = (w', Finished (TransactionNotFound Sample.id0), [(5, Sample.answered "COMMIT" 0)]) /\
    run (handleExecuteRollback Sample.id0) w' [(5, Sample.answered "COMMIT" 0)]
      = (w', Finished (TransactionNotFound Sample.id0), [(5, Sample.answered "COMMIT" 0)]).
Proof.
  assert (Hid : JsString.falsy Sample.id0 = false) by reflexivity.
  destruct (proj2 (commit_rollback_idempotent Sample.id0 Sample.w1
                     [(5, Sample.answered "COMMIT" 0)]) Hid) as (_ & _ & Hsecond).
  eexists. split; [vm_compute; reflexivity|].
  refine (proj2 (Hsecond _ [] _) _).
  left. vm_compute. reflexivity.
Defined.

(** ** The read-only query *)

Section ReadQuery.

Variable toUpperCase : jsstr -> jsstr.

(** Nothing of the request is looked at before the pool has answered. *)
Lemma handleExecuteQuery_connects_first (statement : jsstr) (w : World) :
  exists k, run (handleExecuteQuery toUpperCase statement) w [] = (w, Blocked PoolConnect k, []).
Proof. unfold handleExecuteQuery. simpl. eauto. Qed.

Lemma handleExecuteQuery_no_connection (statement : jsstr) (w : World) d e settle :
  run (handleExecuteQuery toUpperCase statement) w ((d, Rejected e) :: settle)
  = (tick d w, Raised e, settle).
Proof. unfold handleExecuteQuery. simpl. done. Qed.

(** A missing or not read-only statement, once a connection was leased:
    the lease is given back twice, by the branch and by [finally]. *)
Lemma handleExecuteQuery_rejected (statement : jsstr) (w : World) d r settle :
  JsString.falsy statement = true \/ isReadOnlyQuery toUpperCase statement = false ->
  let c := length (trace w) in
  run (handleExecuteQuery toUpperCase statement) w ((d, Resolved r) :: settle)
  = (record_event (EvRelease c)
       (record_event (EvRelease c) (record_event (EvAcquire c) (tick d w))),
     Finished (if JsString.falsy statement then NoSqlProvided else NotReadOnly),
     settle).
Proof.
  intros H c. unfold handleExecuteQuery. simpl.
  destruct (JsString.falsy statement) eqn:Hs.
  - run_handler; done.
  - destruct H as [H|H]; [done|]. rewrite H. run_handler; done.
Qed.

(** A read-only statement the database rejects: the lease is given back and
    the error is thrown, and no [ROLLBACK] is sent. *)
Lemma handleExecuteQuery_failed (statement : jsstr) (w : World) d0 r0 d1 r1 d2 e settle :
  JsString.falsy statement = false ->
  isReadOnlyQuery toUpperCase statement = true ->
  let c := length (trace w) in
  exists w',
    run (handleExecuteQuery toUpperCase statement) w
      ((d0, Resolved r0) :: (d1, Resolved r1) :: (d2, Rejected e) :: settle)
    = (w', Raised e, settle) /\
    trace w' = trace w ++ [EvAcquire c; EvQuery c BEGIN_READ_ONLY;
                           EvQuery c statement; EvRelease c].
Proof.
  intros Hs Hro c. unfold handleExecuteQuery. simpl. rewrite Hs, Hro. simpl.
  release_cases; simpl; (eexists; split; [done|]); simpl;
    by rewrite <- !app_assoc.
Qed.

End ReadQuery.

(** C5, at a write statement sent to the read path: the request is
    answered [NotReadOnly], but only after a connection was acquired (and
    given back); with no connection available the request waits, and when
    the pool refuses it fails with the pool's error instead. *)
Lemma read_query_rejection_acquires_first :
  isReadOnlyQuery Sample.up Sample.insert_sql = false /\
  (exists w',
     run (handleExecuteQuery Sample.up Sample.insert_sql) Sample.w0
       [(0, Sample.leased)]
     = (w', Finished NotReadOnly, []) /\
     trace w' = [EvAcquire 0%nat; EvRelease 0%nat; EvRelease 0%nat] /\
     acquisitions (trace w') = 1%nat) /\
  (exists k,
     run (handleExecuteQuery Sample.up Sample.insert_sql) Sample.w0 []
     = (Sample.w0, Blocked PoolConnect k, [])) /\
  run (handleExecuteQuery Sample.up Sample.insert_sql) Sample.w0 [(0, Rejected Sample.gone)]
  = (tick 0 Sample.w0, Raised Sample.gone, []).
Proof.
  split_and!.
  - reflexivity.
  - eexists. split_and!; reflexivity.
  - eexists. reflexivity.
  - reflexivity.
Qed.

(** C5, as the code has it: a read-query request whose SQL is missing or
    not classified read-only first acquires a connection; once it has one it
    sends no statement on it, gives the connection back and answers with the
    missing-SQL error or [NotReadOnly]; the registry is not touched. When the
    pool refuses the connection, the pool's error is thrown. *)
Theorem read_query_rejected_after_acquire
    (toUpperCase : jsstr -> jsstr) (statement : jsstr) (w : World) d settle :
  JsString.falsy statement = true \/ isReadOnlyQuery toUpperCase statement = false ->
  (forall r, exists w' c released_events,
     run (handleExecuteQuery toUpperCase statement) w ((d, Resolved r) :: settle)
     = (w', Finished (if JsString.falsy statement then NoSqlProvided else NotReadOnly),
        settle) /\
     trace w' = trace w ++ EvAcquire c :: released_events /\
     EvRelease c ∈ released_events /\
     Forall (fun ev => ev = EvRelease c) released_events /\
     activeTransactions w' = activeTransactions w) /\
  (forall e,
     run (handleExecuteQuery toUpperCase statement) w ((d, Rejected e) :: settle)
     = (tick d w, Raised e, settle)).
Proof.
  intros H. split.
  - intros r. eexists _, (length (trace w)), [_; _]. split_and!.
    + by apply handleExecuteQuery_rejected.
    + simpl. by rewrite <- !app_assoc.
    + left.
    + by repeat constructor.
    + done.
  - intros e. apply handleExecuteQuery_no_connection.
Qed.

Lemma read_query_rejected_after_acquire_witness :
  exists w' c released_events,
    run (handleExecuteQuery Sample.up Sample.insert_sql) Sample.w0
      [(0, Sample.leased)]
    = (w', Finished NotReadOnly, []) /\
    trace w' = trace Sample.w0 ++ EvAcquire c :: released_events /\
    EvRelease c ∈ released_events /\
    Forall (fun ev => ev = EvRelease c) released_events /\
    activeTransactions w' = activeTransactions Sample.w0.
Proof.
  refine (proj1 (read_query_rejected_after_acquire Sample.up Sample.insert_sql
                   Sample.w0 0 [] _) (mkQueryResult [] 0 [])).
  right. reflexivity.
Defined.

(** C4, at a read-only statement the database rejects: the error reaches
    the caller after the connection was released, but no [ROLLBACK] was sent
    on it; the connection goes back to the pool inside the failed
    transaction. The write path, at a statement the database rejects, does
    send the [ROLLBACK] before it releases. *)
Theorem read_query_failure_sends_no_rollback :
  isReadOnlyQuery Sample.up Sample.select_sql = true /\
  (exists w',
     run (handleExecuteQuery Sample.up Sample.select_sql) Sample.w0
       [(0, Sample.leased); (0, Sample.answered "BEGIN" 0); (3, Rejected Sample.boom)]
     = (w', Raised Sample.boom, []) /\
     trace w' = [EvAcquire 0%nat; EvQuery 0%nat BEGIN_READ_ONLY;
                 EvQuery 0%nat Sample.select_sql; EvRelease 0%nat] /\
     queries 0%nat ROLLBACK (trace w') = 0%nat /\
     releases 0%nat (trace w') = 1%nat) /\
  (exists w',
     run (handleExecuteDML Sample.select_sql 15000) Sample.w0
       [(0, Sample.leased); (0, Sample.answered "BEGIN" 0); (3, Rejected Sample.boom);
        (1, Sample.answered "ROLLBACK" 0)]
     = (w', Finished (StatementFailed (message Sample.boom) Sample.select_sql), []) /\
     trace w' = [EvAcquire 0%nat; EvQuery 0%nat BEGIN; EvQuery 0%nat Sample.select_sql;
                 EvQuery 0%nat ROLLBACK; EvRelease 0%nat]).
Proof.
  split_and!.
  - reflexivity.
  - eexists. split_and!; reflexivity.
  - eexists. split_and!; reflexivity.
Qed.

(** ** The write that holds its transaction open *)

Lemma handleExecuteDML_registered (statement : jsstr) (timeout : Z) (w : World)
    d0 r0 d1 r1 d2 res settle :
  JsString.falsy statement = false ->
  let c := length (trace w) in
  let id := generateTransactionId (clock w + d0 + d1) (random w (draws w)) in
  exists w' (o : TrackedTransaction),
    run (handleExecuteDML statement timeout) w
      ((d0, Resolved r0) :: (d1, Resolved r1) :: (d2, Resolved res) :: settle)
    = (w', Finished (Pending id (command res) (rowCount res) d2 timeout), settle) /\
    activeTransactions w' = JsMap.set id (length (objects w)) (activeTransactions w) /\
    objects w' = objects w ++ [o] /\
    tx_id o = id /\ client o = c /\ state o = active /\ released o = false /\
    startTime o = clock w + d0 + d1 + d2 /\
    trace w' = trace w ++ [EvAcquire c; EvQuery c BEGIN; EvQuery c statement].
Proof.
  intros Hs c id. unfold handleExecuteDML. simpl. rewrite Hs. simpl.
  eexists _, _. split_and!.
  - replace (clock w + d0 + d1 + d2 - (clock w + d0 + d1)) with d2 by lia. done.
  - done.
  - done.
  - done.
  - done.
  - done.
  - done.
  - done.
  - simpl. by rewrite <- !app_assoc.
Qed.

Lemma handleExecuteDML_failed (statement : jsstr) (timeout : Z) (w : World)
    d0 r0 d1 r1 d2 e d3 y settle :
  JsString.falsy statement = false ->
  let c := length (trace w) in
  exists w',
    run (handleExecuteDML statement timeout) w
      ((d0, Resolved r0) :: (d1, Resolved r1) :: (d2, Rejected e) :: (d3, y) :: settle)
    = (w',
       match y with
       | Resolved _ => Finished (StatementFailed (message e) statement)
       | Rejected e' => Raised e'
       end,
       settle) /\
    activeTransactions w' = activeTransactions w /\
    objects w' = objects w /\
    trace w' = trace w ++ [EvAcquire c; EvQuery c BEGIN; EvQuery c statement;
                           EvQuery c ROLLBACK; EvRelease c].
Proof.
  intros Hs c. unfold handleExecuteDML. simpl. rewrite Hs. simpl.
  destruct y as [r|e']; simpl; release_cases; simpl;
    (eexists; split_and!; [done..|]); simpl; by rewrite <- !app_assoc.
Qed.

(** Every run of the handler that does not end in [Pending] leaves the
    registry and the objects as they were. *)
Lemma handleExecuteDML_registers_only_on_success (statement : jsstr) (timeout : Z)
    (w : World) settle :
  match run (handleExecuteDML statement timeout) w settle with
  | (w', Finished (Pending id _ _ _ _), rest) =>
      exists d0 r0 d1 r1 d2 res,
        JsString.falsy statement = false /\
        settle = (d0, Resolved r0) :: (d1, Resolved r1) :: (d2, Resolved res) :: rest
  | (w', _, _) =>
      activeTransactions w' = activeTransactions w /\ objects w' = objects w
  end.
Proof.
  unfold handleExecuteDML. simpl.
  destruct settle as [|[d0 [r0|e0]] settle]; simpl; [done| |done].
  destruct (JsString.falsy statement) eqn:Hs; simpl.
  { release_cases; simpl; done. }
  destruct settle as [|[d1 [r1|e1]] settle]; simpl; [done| |].
  2: { release_cases; simpl; done. }
  destruct settle as [|[d2 [res|e2]] settle]; simpl; [done| |].
  { by exists d0, r0, d1, r1, d2, res. }
  destruct settle as [|[d3 [r3|e3]] settle]; simpl; [done| |];
    release_cases; simpl; done.
Qed.

(** C7, at a statement whose rollback is rejected as well: the connection
    is released and nothing is registered, but the caller gets the rollback's
    error thrown, not a result that carries the statement. *)
Lemma write_failure_with_failed_rollback :
  exists w',
    run (handleExecuteDML Sample.insert_sql 15000) Sample.w0
      [(0, Sample.leased); (0, Sample.answered "BEGIN" 0);
       (2, Rejected Sample.boom); (1, Rejected Sample.gone)]
    = (w', Raised Sample.gone, []) /\
    Raised Sample.gone
      <> Finished (StatementFailed (message Sample.boom) Sample.insert_sql) /\
    activeTransactions w' = [] /\
    releases 0%nat (trace w') = 1%nat.
Proof. eexists. split_and!; done. Qed.

(** C7, as the code has it: a write-execute call registers an entry exactly
    when its statement executed without error. On success one entry is set
    under the fresh identifier, for a new object that holds the leased
    connection, and the connection is not released. When the statement is
    rejected a [ROLLBACK] is sent, the connection is released and nothing is
    registered; when that rollback succeeds the result is [StatementFailed]
    with the statement's error and the SQL. *)
Theorem write_registers_iff_executed (statement : jsstr) (timeout : Z) (w : World) :
  let c := length (trace w) in
  (forall d0 r0 d1 r1 d2 res settle,
     JsString.falsy statement = false ->
     let id := generateTransactionId (clock w + d0 + d1) (random w (draws w)) in
     exists w' (o : TrackedTransaction),
       run (handleExecuteDML statement timeout) w
         ((d0, Resolved r0) :: (d1, Resolved r1) :: (d2, Resolved res) :: settle)
       = (w', Finished (Pending id (command res) (rowCount res) d2 timeout), settle) /\
       activeTransactions w' = JsMap.set id (length (objects w)) (activeTransactions w) /\
       (hasTransaction id w = false -> transactionCount w' = transactionCount w + 1) /\
       objects w' = objects w ++ [o] /\
       tx_id o = id /\ client o = c /\ state o = active /\ released o = false /\
       trace w' = trace w ++ [EvAcquire c; EvQuery c BEGIN; EvQuery c statement]) /\
  (forall d0 r0 d1 r1 d2 e d3 y settle,
     JsString.falsy statement = false ->
     exists w' outcome,
       run (handleExecuteDML statement timeout) w
         ((d0, Resolved r0) :: (d1, Resolved r1) :: (d2, Rejected e) :: (d3, y) :: settle)
       = (w', outcome, settle) /\
       (forall r, y = Resolved r ->
          outcome = Finished (StatementFailed (message e) statement)) /\
       activeTransactions w' = activeTransactions w /\
       objects w' = objects w /\
       trace w' = trace w ++ [EvAcquire c; EvQuery c BEGIN; EvQuery c statement;
                              EvQuery c ROLLBACK; EvRelease c]) /\
  (forall settle,
     match run (handleExecuteDML statement timeout) w settle with
     | (w', Finished (Pending id _ _ _ _), rest) =>
         exists d0 r0 d1 r1 d2 res,
           JsString.falsy statement = false /\
           settle = (d0, Resolved r0) :: (d1, Resolved r1) :: (d2, Resolved res) :: rest
     | (w', _, _) =>
         activeTransactions w' = activeTransactions w /\ objects w' = objects w
     end).
Proof.
  intros c. split_and!.
  - intros d0 r0 d1 r1 d2 res settle Hs id.
    destruct (handleExecuteDML_registered statement timeout w d0 r0 d1 r1 d2 res settle Hs)
      as (w' & o & H).
    exists w', o. destruct H as (H1 & H2 & H3 & H4 & H5 & H6 & H7 & H8 & H9).
    split_and!; try done.
    intros Hnew. unfold transactionCount. rewrite H2.
    by apply JsMapFacts.size_set_new.
  - intros d0 r0 d1 r1 d2 e d3 y settle Hs.
    destruct (handleExecuteDML_failed statement timeout w d0 r0 d1 r1 d2 e d3 y settle Hs)
      as (w' & Hrun & Hreg & Hobj & Htr).
    eexists w', _. split_and!; [exact Hrun| |done..].
    by intros r ->.
  - intros. apply handleExecuteDML_registers_only_on_success.
Qed.

Lemma write_registers_iff_executed_witness :
  exists w' (o : TrackedTransaction),
    run (handleExecuteDML Sample.insert_sql 15000) Sample.w0
      [(0, Sample.leased); (0, Sample.answered "BEGIN" 0); (7, Sample.answered "INSERT" 1)]
    = (w', Finished (Pending Sample.id0 (JsString.lit "INSERT") 1 7 15000), []) /\
    activeTransactions w' = [(Sample.id0, 0%nat)] /\
    (hasTransaction Sample.id0 Sample.w0 = false ->
     transactionCount w' = transactionCount Sample.w0 + 1) /\
    objects w' = [o] /\
    tx_id o = Sample.id0 /\ client o = 0%nat /\ state o = active /\ released o = false /\
    trace w' = [EvAcquire 0%nat; EvQuery 0%nat BEGIN; EvQuery 0%nat Sample.insert_sql].
Proof.
  refine (proj1 (write_registers_iff_executed Sample.insert_sql 15000 Sample.w0)
            0 (mkQueryResult [] 0 [])
            0 (mkQueryResult (JsString.lit "BEGIN") 0 [])
            7 (mkQueryResult (JsString.lit "INSERT") 1 []) [] _).
  reflexivity.
Defined.

(** ** Composition of runs *)

(** Without responses a task runs to its first suspension point. *)
Lemma run_nil {R} (c : Async R) (w : World) :
  run c w [] = ((advance c w).1, (advance c w).2, []).
Proof.
  revert w. induction c as [a|e|k IH|g k IH|rq k IH]; intros w; simpl; auto.
Qed.

Section RunLaws.
Context {A B : Type}.

Lemma run_bind (c : Async A) (f : A -> Async B) (w : World) settle :
  run (bind c f) w settle
  = match run c w settle with
    | (w', Finished a, rest) => run (f a) w' rest
    | (w', Raised e, rest) => (w', Raised e, rest)
    | (w', Blocked rq k, rest) => (w', Blocked rq (fun r => bind (k r) f), rest)
    end.
Proof.
  revert w settle. induction c as [a|e|k IH|g k IH|rq k IH]; intros w settle; simpl; try done.
  destruct settle as [|[d r] settle]; [done|]. apply IH.
Qed.

Lemma run_try_catch (c : Async A) (h : Error -> Async A) (w : World) settle :
  run (try_catch c h) w settle
  = match run c w settle with
    | (w', Finished a, rest) => (w', Finished a, rest)
    | (w', Raised e, rest) => run (h e) w' rest
    | (w', Blocked rq k, rest) => (w', Blocked rq (fun r => try_catch (k r) h), rest)
    end.
Proof.
  revert w settle. induction c as [a|e|k IH|g k IH|rq k IH]; intros w settle; simpl; try done.
  destruct settle as [|[d r] settle]; [done|]. apply IH.
Qed.

End RunLaws.

Lemma run_bind_Ret {A} (c : Async A) (w : World) settle :
  match run (bind c Ret) w settle, run c w settle with
  | (w1, Finished a1, rest1), (w2, Finished a2, rest2) =>
      w1 = w2 /\ a1 = a2 /\ rest1 = rest2
  | (w1, Raised e1, rest1), (w2, Raised e2, rest2) =>
      w1 = w2 /\ e1 = e2 /\ rest1 = rest2
  | (w1, Blocked rq1 _, rest1), (w2, Blocked rq2 _, rest2) =>
      w1 = w2 /\ rq1 = rq2 /\ rest1 = rest2
  | _, _ => False
  end.
Proof.
  rewrite run_bind. destruct (run c w settle) as [[w' [a|e|rq k]] rest]; simpl; done.
Qed.

(** ** The concurrency ceiling *)

Lemma execute_dml_at_ceiling (cfg : Config) (statement : jsstr) (w : World) settle :
  transactionCount w >= maxConcurrentTransactions cfg ->
  run (execute_dml_ddl_dcl_tcl cfg statement) w settle
  = (w, Finished (TooManyTransactions (maxConcurrentTransactions cfg)), settle).
Proof.
  intros H. unfold execute_dml_ddl_dcl_tcl. simpl.
  destruct (Z.geb_spec (transactionCount w) (maxConcurrentTransactions cfg)); [done|lia].
Qed.

Lemma execute_dml_below_ceiling (cfg : Config) (statement : jsstr) (w : World) settle :
  transactionCount w < maxConcurrentTransactions cfg ->
  run (execute_dml_ddl_dcl_tcl cfg statement) w settle
  = run (try_catch
           (result ← handleExecuteDML statement (transactionTimeoutMs cfg); Ret result)
           (fun error => Ret (ToolError (message error)))) w settle.
Proof.
  intros H. unfold execute_dml_ddl_dcl_tcl. simpl.
  destruct (Z.geb_spec (transactionCount w) (maxConcurrentTransactions cfg)); [lia|done].
Qed.

Lemma transactionCount_removeTransaction (id : jsstr) (w : World) :
  hasTransaction id w = true ->
  transactionCount (removeTransaction id w) < transactionCount w.
Proof. apply JsMapFacts.size_delete_lt. Qed.

(** C6: a write-execute request that finds the registry at (or above) the
    configured maximum is answered [TooManyTransactions] at once: the process
    state is untouched and nothing was awaited, so no connection was asked
    for. Below the maximum the request goes on to [handleExecuteDML]. And
    when the registry is exactly full, after a commit or rollback that
    reported success the next write-execute whose statement executes is
    answered [Pending] and registered. *)
Theorem concurrency_ceiling (cfg : Config) (statement : jsstr) (w : World) settle :
  (transactionCount w >= maxConcurrentTransactions cfg ->
     run (execute_dml_ddl_dcl_tcl cfg statement) w settle
     = (w, Finished (TooManyTransactions (maxConcurrentTransactions cfg)), settle)) /\
  (transactionCount w < maxConcurrentTransactions cfg ->
     run (execute_dml_ddl_dcl_tcl cfg statement) w settle
     = run (try_catch
              (result ← handleExecuteDML statement (transactionTimeoutMs cfg); Ret result)
              (fun error => Ret (ToolError (message error)))) w settle) /\
  (forall id resolved w1 rest,
     transactionCount w = maxConcurrentTransactions cfg ->
     JsString.falsy statement = false ->
     run (handleExecuteCommit id) w resolved = (w1, Finished (Committed id), rest) \/
     run (handleExecuteRollback id) w resolved = (w1, Finished (RolledBack id), rest) ->
     transactionCount w1 < maxConcurrentTransactions cfg /\
     forall d0 r0 d1 r1 d2 res,
       exists w2 id',
         run (execute_dml_ddl_dcl_tcl cfg statement) w1
           ((d0, Resolved r0) :: (d1, Resolved r1) :: (d2, Resolved res) :: settle)
         = (w2,
            Finished (Pending id' (command res) (rowCount res) d2 (transactionTimeoutMs cfg)),
            settle) /\
         hasTransaction id' w2 = true /\
         acquisitions (trace w2) = S (acquisitions (trace w1))).
Proof.
  split_and!.
  - apply execute_dml_at_ceiling.
  - apply execute_dml_below_ceiling.
  - intros id resolved w1 rest Hfull Hs Hfirst.
    assert (Hcount : transactionCount w1 < maxConcurrentTransactions cfg).
    { rewrite <- Hfull. destruct Hfirst as [H|H].
      - apply handleExecuteCommit_committed in H
          as (transaction & o & d & r & _ & _ & Hget & _ & _ & _ & ->).
        apply (transactionCount_removeTransaction id
                 (record_event _ (set_released _ (tick _ (record_event _ w))))).
        by apply has_getTransaction in Hget.
      - apply handleExecuteRollback_rolledBack in H
          as (transaction & o & d & r & _ & _ & Hget & _ & _ & _ & ->).
        apply (transactionCount_removeTransaction id
                 (record_event _ (set_released _ (tick _ (record_event _ w))))).
        by apply has_getTransaction in Hget. }
    split; [done|]. intros d0 r0 d1 r1 d2 res.
    destruct (handleExecuteDML_registered statement (transactionTimeoutMs cfg) w1
                d0 r0 d1 r1 d2 res settle Hs) as (w2 & o & Hrun & Hreg & _ & _ & _ & _ & _ & _ & Htrace).
    exists w2, (generateTransactionId (clock w1 + d0 + d1) (random w1 (draws w1))).
    split_and!.
    + rewrite execute_dml_below_ceiling by done.
      unfold mbind, Async_bind. rewrite run_try_catch, run_bind, Hrun. done.
    + unfold hasTransaction. rewrite Hreg. apply JsMapFacts.has_get.
      eexists. apply JsMapFacts.get_set_eq.
    + rewrite Htrace. unfold acquisitions.
      rewrite list.filter_app, length_app. simpl. lia.
Qed.

(** A registry that is full with one entry: the write is refused; after the
    entry is committed the same write is registered. *)
Lemma concurrency_ceiling_witness :
  run (execute_dml_ddl_dcl_tcl Sample.cfg1 Sample.insert_sql) Sample.w1 []
  = (Sample.w1, Finished (TooManyTransactions 1), []) /\
  exists w' w'' id',
    run (handleExecuteCommit Sample.id0) Sample.w1 [(5, Sample.answered "COMMIT" 0)]
    = (w', Finished (Committed Sample.id0), []) /\
    run (execute_dml_ddl_dcl_tcl Sample.cfg1 Sample.insert_sql) w'
      [(0, Sample.leased); (0, Sample.answered "BEGIN" 0); (2, Sample.answered "INSERT" 1)]
    = (w'', Finished (Pending id' (JsString.lit "INSERT") 1 2 100), []) /\
    hasTransaction id' w'' = true.
Proof.
  destruct (concurrency_ceiling Sample.cfg1 Sample.insert_sql Sample.w1 [])
    as (Hfull & _ & Hnext).
  split.
  - apply Hfull. vm_compute. discriminate.
  - eexists _, _, _. split; [vm_compute; reflexivity|].
    edestruct (Hnext Sample.id0 [(5, Sample.answered "COMMIT" 0)]) as [_ Hrun].
    + reflexivity.
    + reflexivity.
    + left. vm_compute. reflexivity.
    + destruct (Hrun 0 (mkQueryResult [] 0 []) 0 (mkQueryResult (JsString.lit "BEGIN") 0 [])
                  2 (mkQueryResult (JsString.lit "INSERT") 1 []))
        as (w2 & id' & H1 & H2 & _).
      vm_compute in H1. injection H1 as <- <-.
      split; [vm_compute; reflexivity|]. exact H2.
Defined.

(** ** The shutdown drain *)

Lemma due_ext objs objs' entries :
  (forall kv, kv ∈ entries -> objs' !! kv.2 = objs !! kv.2) ->
  rollbacks_due objs' entries = rollbacks_due objs entries /\
  drain_events objs' entries = drain_events objs entries.
Proof.
  induction entries as [|[id tx] rest IH]; intros H; [done|].
  destruct IH as [IH1 IH2]. { intros kv Hkv. apply H. by right. }
  pose proof (H (id, tx) ltac:(left)) as Htx. simpl in Htx.
  simpl. rewrite Htx, IH1, IH2. done.
Qed.


Lemma objects_drained id tx o d w :
  objects (drained id tx o d w) = alter mark_released tx (objects w).
Proof. done. Qed.

Lemma trace_drained id tx o d w :
  trace (drained id tx o d w)
  = trace w ++ [EvQuery (client o) ROLLBACK; EvRelease (client o)].
Proof. simpl. by rewrite <- app_assoc. Qed.

Lemma registry_drained id tx o d w :
  activeTransactions (drained id tx o d w) = JsMap.delete id (activeTransactions w).
Proof. done. Qed.

Lemma run_drain_skip id tx rest (w : World) o settle :
  objects w !! tx = Some o -> released o = true ->
  run (drain ((id, tx) :: rest)) w settle = run (drain rest) (removeTransaction id w) settle.
Proof. intros Ho Hrel. simpl. rewrite Ho. simpl. rewrite Hrel. done. Qed.

Lemma run_drain_step id tx rest (w : World) o d r settle :
  objects w !! tx = Some o -> released o = false ->
  run (drain ((id, tx) :: rest)) w ((d, r) :: settle)
  = run (drain rest) (drained id tx o d w) settle.
Proof.
  intros Ho Hrel. simpl. rewrite Ho. simpl. rewrite Hrel. simpl.
  destruct r as [res|e]; simpl; release_cases; simpl; done.
Qed.

Lemma run_drain_starved id tx rest (w : World) o :
  objects w !! tx = Some o -> released o = false ->
  exists k, run (drain ((id, tx) :: rest)) w []
            = (record_event (EvQuery (client o) ROLLBACK) w,
               Blocked (ClientQuery (client o) ROLLBACK) k, []).
Proof. intros Ho Hrel. simpl. rewrite Ho. simpl. rewrite Hrel. simpl. eauto. Qed.

Lemma run_drain (entries : list (jsstr * TxRef)) : forall (w : World) settle,
  (forall kv, kv ∈ entries -> is_Some (objects w !! kv.2)) ->
  NoDup (snd <$> entries) ->
  (rollbacks_due (objects w) entries <= length settle)%nat ->
  exists w',
    run (drain entries) w settle
    = (w', Finished tt, drop (rollbacks_due (objects w) entries) settle) /\
    trace w' = trace w ++ drain_events (objects w) entries /\
    (forall kv, kv ∈ entries ->
       exists o', objects w' !! kv.2 = Some o' /\ released o' = true) /\
    (forall tx, tx ∉ (snd <$> entries) -> objects w' !! tx = objects w !! tx) /\
    (forall kv, kv ∈ activeTransactions w' -> kv ∈ activeTransactions w /\ kv.1 ∉ (fst <$> entries)).
Proof.
  induction entries as [|[id tx] rest IH]; intros w settle Hbound Hnd Hlen.
  - exists w. simpl. split_and!; try done.
    + by rewrite app_nil_r.
    + intros kv H. by apply elem_of_nil in H.
    + intros kv H. split; [done|]. apply not_elem_of_nil.
  - rewrite fmap_cons in Hnd. apply list.NoDup_cons in Hnd as [Hfresh Hnd]. simpl in Hfresh.
    destruct (Hbound (id, tx) ltac:(left)) as [o Ho]. cbn [snd] in Ho.
    destruct (released o) eqn:Hrel.
    + rewrite (run_drain_skip _ _ _ _ _ _ Ho Hrel). simpl in Hlen |- *.
      rewrite Ho, Hrel in Hlen |- *.
      destruct (IH (removeTransaction id w) settle) as (w' & Hrun & Htr & Hrel' & Hobj & Hreg); try done.
      { intros kv Hkv. apply Hbound. by right. }
      exists w'. split_and!; try done.
      * intros kv [->|Hkv]%elem_of_cons; [|by apply Hrel'].
        exists o. simpl. split; [|done]. rewrite Hobj; done.
      * intros tx' Htx'. rewrite ?fmap_cons in Htx'. apply not_elem_of_cons in Htx' as [? ?]. by apply Hobj.
      * intros kv Hkv. apply Hreg in Hkv as [Hkv Hk]. simpl in Hkv.
        apply JsMapFacts.elem_delete in Hkv as [Hkv Hne].
        split; [done|]. rewrite ?fmap_cons. apply not_elem_of_cons. done.
    + simpl in Hlen. rewrite Ho, Hrel in Hlen.
      destruct settle as [|[d r] settle]; [simpl in Hlen; lia|]. simpl in Hlen.
      rewrite (run_drain_step _ _ _ _ _ _ _ _ Ho Hrel).
      cbn [rollbacks_due drain_events]. rewrite Ho, Hrel. cbn [drop].
      assert (Hsame : forall kv, kv ∈ rest ->
                objects (drained id tx o d w) !! kv.2 = objects w !! kv.2).
      { intros [id' tx'] Hkv. rewrite objects_drained. cbn [snd]. apply list_lookup_alter_ne.
        intros ->. apply Hfresh. apply list_elem_of_fmap. by exists (id', tx'). }
      destruct (due_ext (objects w) (objects (drained id tx o d w)) rest Hsame) as [E1 E2].
      destruct (IH (drained id tx o d w) settle) as (w' & Hrun & Htr & Hrel' & Hobj & Hreg).
      { intros kv Hkv. rewrite Hsame by done. apply Hbound. by right. }
      { done. }
      { rewrite E1. lia. }
      rewrite E1 in Hrun. rewrite E2 in Htr.
      exists w'. split_and!.
      * done.
      * rewrite Htr, trace_drained. by rewrite <- !app_assoc.
      * intros kv [->|Hkv]%elem_of_cons; [|by apply Hrel'].
        cbn [snd]. rewrite Hobj by done. rewrite objects_drained.
        rewrite list_lookup_alter_eq, Ho. simpl. eauto.
      * intros tx' Htx'. rewrite ?fmap_cons in Htx'. apply not_elem_of_cons in Htx' as [? ?].
        rewrite Hobj by done. rewrite objects_drained. by apply list_lookup_alter_ne.
      * intros kv Hkv. apply Hreg in Hkv as [Hkv Hk]. rewrite registry_drained in Hkv.
        apply JsMapFacts.elem_delete in Hkv as [Hkv Hne].
        split; [done|]. rewrite ?fmap_cons. apply not_elem_of_cons. done.
Qed.

(** C9: the drain takes a snapshot of the registry and goes through all of
    it. An entry whose object is already released is only removed. For every
    other entry a [ROLLBACK] is sent on its connection and, whether that is
    answered or rejected, the object is marked released, the connection is
    released and the entry removed; then the next entry is taken. Given an
    answer for each rollback the drain completes, the registry is empty and
    every object of the snapshot is marked released. *)
Theorem cleanupTransactions_drains (w : World) (settle : list (Z * Response)) :
  registry_bound w ->
  (rollbacks_due (objects w) (activeTransactions w) <= length settle)%nat ->
  exists w',
    run cleanupTransactions w settle
    = (w', Finished tt,
       drop (rollbacks_due (objects w) (activeTransactions w)) settle) /\
    activeTransactions w' = [] /\
    trace w' = trace w ++ drain_events (objects w) (activeTransactions w) /\
    (forall id transaction,
       (id, transaction) ∈ activeTransactions w ->
       exists o', objects w' !! transaction = Some o' /\ released o' = true).
Proof.
  intros [Hbound Hnd] Hlen.
  destruct (run_drain (activeTransactions w) w settle) as (w' & Hrun & Htr & Hrel & _ & _).
  { intros [id tx] Hkv. by eapply Hbound. }
  { done. }
  { done. }
  exists (with_registry (fun _ => []) w'). split_and!.
  - unfold cleanupTransactions. cbn [run]. unfold mbind, Async_bind.
    rewrite run_bind, Hrun. done.
  - done.
  - done.
  - intros id tx Hkv. apply (Hrel (id, tx) Hkv).
Qed.

Lemma registry_bound_sample : registry_bound Sample.w2.
Proof.
  split.
  - intros id tx Hin. vm_compute in Hin.
    apply elem_of_cons in Hin as [[= -> ->]|Hin]; [by eexists|].
    apply elem_of_cons in Hin as [[= -> ->]|Hin]; [by eexists|].
    by apply elem_of_nil in Hin.
  - apply (bool_decide_unpack _). by vm_compute.
Qed.

(** Two open entries, the first of which has its rollback rejected: both
    connections are released, both entries are gone. *)
Lemma cleanupTransactions_drains_witness :
  exists w',
    run cleanupTransactions Sample.w2
      [(1, Rejected Sample.gone); (1, Sample.answered "ROLLBACK" 0)]
    = (w', Finished tt, []) /\
    activeTransactions w' = [] /\
    trace w' = [EvQuery 0%nat ROLLBACK; EvRelease 0%nat;
                EvQuery 1%nat ROLLBACK; EvRelease 1%nat] /\
    (forall id transaction,
       (id, transaction) ∈ activeTransactions Sample.w2 ->
       exists o', objects w' !! transaction = Some o' /\ released o' = true).
Proof.
  apply (cleanupTransactions_drains Sample.w2
           [(1, Rejected Sample.gone); (1, Sample.answered "ROLLBACK" 0)]).
  - exact registry_bound_sample.
  - vm_compute. lia.
Defined.

(** ** The registry invariant *)

Create HintDb registry discriminated.

Lemma extends_refl w : extends w w.
Proof. intros tx o H. eauto. Qed.

Lemma extends_trans w1 w2 w3 : extends w1 w2 -> extends w2 w3 -> extends w1 w3.
Proof.
  intros H12 H23 tx o H.
  destruct (H12 _ _ H) as (o2 & H2 & Hid2 & Hc2).
  destruct (H23 _ _ H2) as (o3 & H3 & Hid3 & Hc3).
  exists o3. split_and!; congruence.
Qed.

Lemma extends_same_objects w w' : objects w' = objects w -> extends w w'.
Proof. intros Heq tx o H. rewrite Heq. eauto. Qed.

Lemma extends_record_event e w : extends w (record_event e w).
Proof. by apply extends_same_objects. Qed.
Lemma extends_tick d w : extends w (tick d w).
Proof. by apply extends_same_objects. Qed.
Lemma extends_draw w : extends w (draw w).
Proof. by apply extends_same_objects. Qed.
Lemma extends_with_registry f w : extends w (with_registry f w).
Proof. by apply extends_same_objects. Qed.
Lemma extends_removeTransaction id w : extends w (removeTransaction id w).
Proof. by apply extends_same_objects. Qed.

Lemma extends_alter f tx w :
  (forall o, tx_id (f o) = tx_id o /\ client (f o) = client o) ->
  extends w (with_objects (alter f tx) w).
Proof.
  intros Hf tx' o H. simpl. destruct (decide (tx = tx')) as [->|Hne].
  - rewrite list_lookup_alter_eq, H. simpl. exists (f o). split; [done|apply Hf].
  - rewrite list_lookup_alter_ne by done. eauto.
Qed.

Lemma extends_set_released tx w : extends w (set_released tx w).
Proof. by apply extends_alter. Qed.
Lemma extends_set_terminating tx w : extends w (set_terminating tx w).
Proof. by apply extends_alter. Qed.

Lemma extends_addTransaction id cl q w : extends w (addTransaction id cl q w).
Proof.
  intros tx o H. simpl. exists o. split; [|done].
  apply lookup_app_l_Some. done.
Qed.

#[export] Hint Resolve extends_refl extends_record_event extends_tick extends_draw
  extends_with_registry extends_removeTransaction extends_set_released
  extends_set_terminating extends_addTransaction : registry.

Lemma registry_ok_same w w' :
  activeTransactions w' = activeTransactions w -> objects w' = objects w ->
  registry_ok w -> registry_ok w'.
Proof.
  intros H1 H2 [Hnd Hok]. split; [by rewrite H1|].
  intros id tx. rewrite H1, H2. apply Hok.
Qed.

Lemma registry_ok_record_event e w : registry_ok w -> registry_ok (record_event e w).
Proof. by apply registry_ok_same. Qed.
Lemma registry_ok_tick d w : registry_ok w -> registry_ok (tick d w).
Proof. by apply registry_ok_same. Qed.
Lemma registry_ok_draw w : registry_ok w -> registry_ok (draw w).
Proof. by apply registry_ok_same. Qed.

Lemma registry_ok_removeTransaction id w : registry_ok w -> registry_ok (removeTransaction id w).
Proof.
  intros [Hnd Hok]. split; [by apply JsMapFacts.NoDup_keys_delete|].
  intros id' tx Hin. simpl in Hin. apply JsMapFacts.elem_delete in Hin as [Hin _].
  by apply Hok.
Qed.

Lemma registry_ok_clear w : registry_ok (with_registry (fun _ => []) w).
Proof.
  split; [constructor|]. intros id tx Hin. simpl in Hin. by apply elem_of_nil in Hin.
Qed.

Lemma registry_ok_set_terminating tx w : registry_ok w -> registry_ok (set_terminating tx w).
Proof.
  intros [Hnd Hok]. split; [done|].
  intros id tx' Hin. destruct (Hok id tx' Hin) as (o & Ho & Hid & Hrel).
  simpl. destruct (decide (tx = tx')) as [->|Hne].
  - rewrite list_lookup_alter_eq, Ho. simpl. eauto.
  - rewrite list_lookup_alter_ne by done. eauto.
Qed.

(** Setting the flag and removing the entry, in one step. *)
Lemma registry_ok_resolved id tx o e w :
  registry_ok w -> objects w !! tx = Some o -> tx_id o = id ->
  registry_ok (removeTransaction id (record_event e (set_released tx w))).
Proof.
  intros [Hnd Hok] Ho Hid. split; [by apply JsMapFacts.NoDup_keys_delete|].
  intros id' tx' Hin. simpl in Hin.
  apply JsMapFacts.elem_delete in Hin as [Hin Hne]. simpl in Hne.
  destruct (Hok id' tx' Hin) as (o' & Ho' & Hid' & Hrel').
  simpl. destruct (decide (tx = tx')) as [->|Hne'].
  - congruence.
  - rewrite list_lookup_alter_ne by done. eauto.
Qed.

Lemma registry_ok_addTransaction id cl q w :
  registry_ok w -> registry_ok (addTransaction id cl q w).
Proof.
  intros [Hnd Hok]. split; [by apply JsMapFacts.NoDup_keys_set|].
  intros id' tx Hin. simpl in Hin.
  apply JsMapFacts.elem_set in Hin as [[= -> ->]|Hin].
  - simpl. rewrite list_lookup_middle by done. eauto.
  - destruct (Hok id' tx Hin) as (o & Ho & Hid & Hrel).
    exists o. split; [|done]. simpl. by apply lookup_app_l_Some.
Qed.

#[export] Hint Resolve registry_ok_record_event registry_ok_tick registry_ok_draw
  registry_ok_removeTransaction registry_ok_clear registry_ok_set_terminating
  registry_ok_addTransaction : registry.

Lemma registry_ok_bound (w : World) : registry_ok w -> registry_bound w.
Proof.
  intros [Hnd Hok]. split.
  - intros id tx Hin. destruct (Hok id tx Hin) as (o & -> & _). by eexists.
  - apply NoDup_fmap_2_strong; [|by eapply NoDup_fmap_1].
    intros [id1 tx1] [id2 tx2] H1 H2 Heq. cbn [snd] in Heq. subst tx2.
    destruct (Hok id1 tx1 H1) as (o1 & Ho1 & Hid1 & _).
    destruct (Hok id2 tx1 H2) as (o2 & Ho2 & Hid2 & _).
    congruence.
Qed.

Lemma wp_mono {R} (c : Async R) (Q Q' : R -> World -> Prop) (E E' : Error -> World -> Prop) :
  (forall r w, Q r w -> Q' r w) -> (forall e w, E e w -> E' e w) ->
  forall w, wp c Q E w -> wp c Q' E' w.
Proof.
  intros HQ HE. induction c as [a|e|k IH|g k IH|rq k IH]; intros w; simpl; eauto.
  - intros [H1 H2]. split; eauto.
  - intros [H1 H2]. split; eauto.
Qed.

Lemma wp_bind {A B} (c : Async A) (f : A -> Async B) Q E w :
  wp c (fun a w' => wp (f a) Q E w') E w -> wp (bind c f) Q E w.
Proof.
  revert w. induction c as [a|e|k IH|g k IH|rq k IH]; intros w; simpl; eauto.
  - intros [H1 H2]. split; eauto.
  - intros [H1 H2]. split; eauto.
Qed.

Lemma wp_try_catch {A} (c : Async A) (h : Error -> Async A) Q E w :
  wp c Q (fun e w' => wp (h e) Q E w') w -> wp (try_catch c h) Q E w.
Proof.
  revert w. induction c as [a|e|k IH|g k IH|rq k IH]; intros w; simpl; eauto.
  - intros [H1 H2]. split; eauto.
  - intros [H1 H2]. split; eauto.
Qed.

Lemma wp_try_finally {A} (c : Async A) (final : Async unit) Q E w :
  wp c (fun a w' => wp final (fun _ w'' => Q a w'') E w')
       (fun e w' => wp final (fun _ w'' => E e w'') E w') w ->
  wp (try_finally c final) Q E w.
Proof.
  revert w. induction c as [a|e|k IH|g k IH|rq k IH]; intros w; simpl; eauto.
  - intros H. by apply wp_bind.
  - intros H. apply wp_bind. done.
  - intros [H1 H2]. split; eauto.
  - intros [H1 H2]. split; eauto.
Qed.

Lemma wp_advance {R} (c : Async R) Q E w :
  wp c Q E w ->
  match advance c w with
  | (w', Finished r) => extends w w' /\ Q r w'
  | (w', Raised e) => extends w w' /\ E e w'
  | (w', Blocked rq k) =>
      extends w w' /\ registry_ok w' /\
      forall r w'', registry_ok w'' -> extends w' w'' -> wp (k r) Q E w''
  end.
Proof.
  revert w. induction c as [a|e|k IH|g k IH|rq k IH]; intros w; simpl.
  - auto with registry.
  - auto with registry.
  - apply IH.
  - intros [H1 H2]. specialize (IH _ H2).
    destruct (advance k (g w)) as [w' [r|e|rq k']]; destruct IH as [H3 H4];
      (split; [by eapply extends_trans|done]).
  - intros [H1 H2]. auto with registry.
Qed.

(** [safelyReleaseClient] *)
Lemma wp_safelyReleaseClient cl (Q : unit -> World -> Prop) E w :
  Q tt (record_event (EvRelease cl) w) -> wp (safelyReleaseClient cl) Q E w.
Proof.
  intros H. unfold safelyReleaseClient, client_release. simpl.
  split; [auto with registry|]. by destruct (decide _).
Qed.

Lemma wp_exec f (Q : unit -> World -> Prop) E w :
  extends w (f w) -> Q tt (f w) -> wp (exec f) Q E w.
Proof. intros. simpl. done. Qed.

Lemma wp_client_query cl text (Q : QueryResult -> World -> Prop) E w :
  registry_ok w ->
  (forall w', registry_ok w' -> extends w w' ->
     (forall res, Q res w') /\ (forall e, E e w')) ->
  wp (client_query cl text) Q E w.
Proof.
  intros Hok H. unfold client_query. simpl. split; [auto with registry|].
  split; [auto with registry|]. intros r w' Hok' Hext.
  destruct (H w' Hok') as [HQ HE].
  { eapply extends_trans; [|done]. auto with registry. }
  destruct r; simpl; auto.
Qed.

Lemma registry_entry id tx w :
  registry_ok w -> getTransaction id w = Some tx ->
  exists o, objects w !! tx = Some o /\ tx_id o = id /\ released o = false.
Proof. intros [_ Hok] Hget. apply Hok. by apply JsMapFacts.get_Some_elem. Qed.

Lemma extends_lookup w w' tx o id :
  extends w w' -> objects w !! tx = Some o -> tx_id o = id ->
  exists o', objects w' !! tx = Some o' /\ tx_id o' = id /\ client o' = client o.
Proof. intros Hext Ho Hid. destruct (Hext _ _ Ho) as (o' & ? & ? & ?). exists o'. split_and!; congruence. Qed.

Ltac wp_go :=
  repeat first
    [ progress simpl
    | match goal with |- _ /\ _ => split end
    | release_cases
    | solve [auto with registry] ].

Lemma handleExecuteCommit_keeps_registry id w :
  registry_ok w -> keeps_registry (handleExecuteCommit id) w.
Proof.
  intros Hok. unfold keeps_registry, handleExecuteCommit.
  destruct (JsString.falsy id); [done|]. simpl.
  destruct (hasTransaction id w); [|done]. simpl.
  destruct (getTransaction id w) as [tx|] eqn:Hget; [|done].
  destruct (registry_entry _ _ _ Hok Hget) as (o & Ho & Hid & Hrel).
  simpl. rewrite Ho. simpl. rewrite Hrel. wp_go.
  intros r w' Hok' Hext.
  destruct (extends_lookup _ _ _ _ _ (extends_trans _ _ _ (extends_record_event _ w) Hext) Ho Hid)
    as (o' & Ho' & Hid' & _).
  destruct r as [res|e]; wp_go.
  - by eapply registry_ok_resolved.
  - by eapply registry_ok_resolved.
  - intros r2 w'' Hok'' Hext''.
    destruct (extends_lookup _ _ _ _ _ (extends_trans _ _ _ (extends_record_event _ w') Hext'') Ho' Hid')
      as (o'' & Ho'' & Hid'' & _).
    destruct r2 as [res2|e2]; wp_go; by eapply registry_ok_resolved.
Qed.

Lemma handleExecuteRollback_keeps_registry id w :
  registry_ok w -> keeps_registry (handleExecuteRollback id) w.
Proof.
  intros Hok. unfold keeps_registry, handleExecuteRollback.
  destruct (JsString.falsy id); [done|]. simpl.
  destruct (hasTransaction id w); [|done]. simpl.
  destruct (getTransaction id w) as [tx|] eqn:Hget; [|done].
  destruct (registry_entry _ _ _ Hok Hget) as (o & Ho & Hid & Hrel).
  simpl. rewrite Ho. simpl. rewrite Hrel. wp_go.
  intros r w' Hok' Hext.
  destruct (extends_lookup _ _ _ _ _ (extends_trans _ _ _ (extends_record_event _ w) Hext) Ho Hid)
    as (o' & Ho' & Hid' & _).
  destruct r as [res|e]; wp_go; by eapply registry_ok_resolved.
Qed.

Lemma execute_rollback_keeps_registry id w :
  registry_ok w -> keeps_registry (execute_rollback id) w.
Proof.
  intros Hok. unfold keeps_registry, execute_rollback. simpl.
  destruct (hasTransaction id w); [|done]. simpl.
  destruct (getTransaction id w) as [tx|] eqn:Hget; [|done].
  destruct (registry_entry _ _ _ Hok Hget) as (o & Ho & Hid & Hrel).
  simpl. rewrite Ho. simpl. rewrite Hrel. wp_go.
  intros r w' Hok' Hext.
  destruct (extends_lookup _ _ _ _ _ (extends_trans _ _ _ (extends_record_event _ w) Hext) Ho Hid)
    as (o' & Ho' & Hid' & _).
  destruct r as [res|e]; wp_go; by eapply registry_ok_resolved.
Qed.

Lemma handleExecuteQuery_keeps_registry up statement w :
  registry_ok w -> keeps_registry (handleExecuteQuery up statement) w.
Proof.
  intros Hok. unfold keeps_registry, handleExecuteQuery. simpl. split; [done|].
  intros r w1 Hok1 _. destruct r as [r|e]; [|done]. simpl.
  destruct (JsString.falsy statement); [wp_go|].
  destruct (isReadOnlyQuery up statement); [|wp_go]. wp_go.
  intros r1 w2 Hok2 _. destruct r1 as [r1|e1]; wp_go.
  intros r2 w3 Hok3 _. destruct r2 as [r2|e2]; wp_go.
  intros r3 w4 Hok4 _. destruct r3 as [r3|e3]; wp_go.
Qed.

Lemma handleExecuteDML_keeps_registry statement timeout w :
  registry_ok w -> keeps_registry (handleExecuteDML statement timeout) w.
Proof.
  intros Hok. unfold keeps_registry, handleExecuteDML. simpl. split; [done|].
  intros r w1 Hok1 _. destruct r as [r|e]; [|done]. simpl.
  destruct (JsString.falsy statement); [wp_go|]. wp_go.
  intros r1 w2 Hok2 _. destruct r1 as [r1|e1]; wp_go.
  intros r2 w3 Hok3 _. destruct r2 as [r2|e2]; wp_go.
  intros r3 w4 Hok4 _. destruct r3 as [r3|e3]; wp_go.
Qed.

Lemma keeps_registry_tool_wrapper (c : Async ToolResult) w :
  keeps_registry c w ->
  keeps_registry (try_catch c (fun error => Ret (ToolError (message error)))) w.
Proof. intros H. apply wp_try_catch. eapply wp_mono; [| |exact H]; simpl; auto. Qed.

Lemma execute_dml_keeps_registry cfg statement w :
  registry_ok w -> keeps_registry (execute_dml_ddl_dcl_tcl cfg statement) w.
Proof.
  intros Hok. unfold execute_dml_ddl_dcl_tcl. apply keeps_registry_tool_wrapper.
  unfold keeps_registry. cbn [wp].
  destruct (transactionCount w >=? maxConcurrentTransactions cfg); [done|].
  apply wp_bind. eapply wp_mono; [| |by apply handleExecuteDML_keeps_registry]; simpl; auto.
Qed.

Lemma tool_keeps_registry up cfg c w :
  registry_ok w -> keeps_registry (tool up cfg c) w.
Proof.
  intros Hok. destruct c; cbn [tool].
  - by apply keeps_registry_tool_wrapper, handleExecuteQuery_keeps_registry.
  - by apply execute_dml_keeps_registry.
  - by apply keeps_registry_tool_wrapper, handleExecuteCommit_keeps_registry.
  - by apply execute_rollback_keeps_registry.
  - by apply keeps_registry_tool_wrapper, handleExecuteRollback_keeps_registry.
Qed.

(** The monitor's forced rollback, for an object registered under [id]. *)
Lemma forcedRollback_keeps_registry id tx o w :
  registry_ok w -> objects w !! tx = Some o -> tx_id o = id ->
  keeps_registry (forcedRollback id tx) w.
Proof.
  intros Hok Ho Hid. unfold keeps_registry, forcedRollback. simpl. rewrite Ho. wp_go.
  intros r w' Hok' Hext.
  destruct (extends_lookup _ _ _ _ _ (extends_trans _ _ _ (extends_record_event _ w) Hext) Ho Hid)
    as (o' & Ho' & Hid' & _).
  destruct r as [res|e]; simpl; rewrite Ho'; simpl;
    destruct (released o'); wp_go; by eapply registry_ok_resolved.
Qed.

Lemma snapshot_ok_extends entries w w' :
  snapshot_ok entries w -> extends w w' -> snapshot_ok entries w'.
Proof.
  intros Hs Hext id tx Hin. destruct (Hs id tx Hin) as (o & Ho & Hid).
  destruct (extends_lookup _ _ _ _ _ Hext Ho Hid) as (o' & ? & ? & _). eauto.
Qed.

Lemma snapshot_ok_registry w : registry_ok w -> snapshot_ok (activeTransactions w) w.
Proof. intros [_ Hok] id tx Hin. destruct (Hok id tx Hin) as (o & ? & ? & _). eauto. Qed.

Lemma snapshot_ok_tail kv entries w : snapshot_ok (kv :: entries) w -> snapshot_ok entries w.
Proof. intros Hs id tx Hin. apply Hs. by right. Qed.

(** The drain loop never throws, whatever the other tasks do meanwhile. *)
Lemma drain_never_throws entries : forall w,
  registry_ok w -> snapshot_ok entries w ->
  wp (drain entries) (fun _ w' => registry_ok w') (fun _ _ => False) w.
Proof.
  induction entries as [|[id tx] rest IH]; intros w Hok Hsnap; [done|].
  destruct (Hsnap id tx ltac:(left)) as (o & Ho & Hid).
  apply snapshot_ok_tail in Hsnap.
  cbn [drain]. unfold mbind, Async_bind, deref. cbn [bind wp]. rewrite Ho. cbn [bind].
  apply wp_bind. destruct (released o).
  - apply wp_exec; [auto with registry|]. apply IH; [auto with registry|].
    eapply snapshot_ok_extends; eauto with registry.
  - wp_go. intros r w' Hok' Hext.
    assert (Hext' : extends w w').
    { eapply extends_trans; [|done]. auto with registry. }
    destruct (extends_lookup _ _ _ _ _ Hext' Ho Hid) as (o' & Ho' & Hid' & _).
    destruct r as [res|e]; wp_go;
      (apply IH; [by eapply registry_ok_resolved|]);
      (eapply snapshot_ok_extends; [exact Hsnap|]);
      (eapply extends_trans; [exact Hext'|]);
      repeat (eapply extends_trans; [|solve [auto with registry]]);
      auto with registry.
Qed.

(** Also when other tasks run while it waits for its rollbacks, the drain
    does not throw, and the registry is empty when it completes. *)
Lemma cleanupTransactions_clears w :
  registry_ok w ->
  wp cleanupTransactions
    (fun _ w' => activeTransactions w' = [] /\ registry_ok w') (fun _ _ => False) w.
Proof.
  intros Hok. unfold cleanupTransactions. cbn [wp].
  unfold mbind, Async_bind. apply wp_bind.
  eapply wp_mono; [| |apply drain_never_throws; [done|by apply snapshot_ok_registry]].
  - intros u w' Hok'. apply wp_exec; auto with registry.
  - auto.
Qed.

Lemma cleanupTransactions_keeps_registry w :
  registry_ok w -> keeps_registry cleanupTransactions w.
Proof.
  intros Hok. unfold keeps_registry.
  eapply wp_mono; [| |by apply cleanupTransactions_clears]; simpl; tauto.
Qed.

Lemma task_ok_extends w w' t : task_ok w t -> extends w w' -> task_ok w' t.
Proof.
  intros Ht Hext. destruct t as [rq k|rq k]; simpl in *; intros r w'' Hok Hext';
    apply Ht; try done; by eapply extends_trans.
Qed.

Lemma spawn_ok (c : Async unit) w :
  keeps_registry c w ->
  registry_ok (spawn c w).1 /\ extends w (spawn c w).1 /\
  Forall (task_ok (spawn c w).1) (spawn c w).2.
Proof.
  intros H. apply wp_advance in H. unfold spawn.
  destruct (advance c w) as [w' [r|e|rq k]]; simpl.
  - destruct H. split_and!; [done..|constructor].
  - destruct H. split_and!; [done..|constructor].
  - destruct H as (H1 & H2 & H3). split_and!; [done..|].
    constructor; [|constructor]. simpl. exact H3.
Qed.

Lemma sweep_ok timeout now entries : forall w,
  registry_ok w -> snapshot_ok entries w ->
  registry_ok (sweep timeout now entries w).1 /\
  extends w (sweep timeout now entries w).1 /\
  Forall (task_ok (sweep timeout now entries w).1) (sweep timeout now entries w).2.
Proof.
  induction entries as [|[id tx] rest IH]; intros w Hok Hsnap.
  { simpl. split_and!; [done|auto with registry|constructor]. }
  destruct (Hsnap id tx ltac:(left)) as (o & Ho & Hid).
  apply snapshot_ok_tail in Hsnap.
  cbn [sweep]. rewrite Ho.
  destruct (released o); [by apply IH|].
  destruct ((now - startTime o >? timeout) && bool_decide (state o = active)); [|by apply IH].
  assert (Hok1 : registry_ok (set_terminating tx w)) by auto with registry.
  assert (Ho1 : exists o1, objects (set_terminating tx w) !! tx = Some o1 /\ tx_id o1 = id).
  { destruct (extends_lookup _ _ _ _ _ (extends_set_terminating tx w) Ho Hid) as (o1 & ? & ? & _).
    eauto. }
  destruct Ho1 as (o1 & Ho1 & Hid1).
  pose proof (spawn_ok _ _ (forcedRollback_keeps_registry id tx o1 _ Hok1 Ho1 Hid1)) as Hsp.
  destruct (spawn (forcedRollback id tx) (set_terminating tx w)) as [w1 started].
  simpl in Hsp. destruct Hsp as (Hok2 & Hext2 & Hts).
  assert (Hext1 : extends w w1).
  { eapply extends_trans; [|exact Hext2]. auto with registry. }
  specialize (IH w1 Hok2 (snapshot_ok_extends _ _ _ Hsnap Hext1)).
  destruct (sweep timeout now rest w1) as [w2 more]. simpl in IH |- *.
  destruct IH as (Hok3 & Hext3 & Hmore). split_and!.
  - done.
  - by eapply extends_trans.
  - apply Forall_app. split; [|done].
    eapply list.Forall_impl; [exact Hts|]. intros t Ht. by eapply task_ok_extends.
Qed.

Section ProcessInvariant.

Variable toUpperCase : jsstr -> jsstr.
Variable cfg : Config.

Lemma initial_ok now rnd : system_ok (initial now rnd).
Proof.
  split; [|constructor]. split; [constructor|].
  intros id tx Hin. by apply elem_of_nil in Hin.
Qed.

Lemma start_tool_ok (c : Async ToolResult) (s : System) :
  system_ok s -> keeps_registry c (world s) -> system_ok (start_tool c s).
Proof.
  intros [Hok Hts] H. apply wp_advance in H. unfold start_tool.
  destruct (advance c (world s)) as [w' [r|e|rq k]]; simpl.
  - destruct H as [Hext Hok']. split; [done|]. simpl.
    eapply list.Forall_impl; [exact Hts|]. intros t Ht. by eapply task_ok_extends.
  - destruct H as [Hext Hok']. split; [done|]. simpl.
    eapply list.Forall_impl; [exact Hts|]. intros t Ht. by eapply task_ok_extends.
  - destruct H as (Hext & Hok' & Hk). split; [done|]. simpl.
    apply Forall_app. split.
    + eapply list.Forall_impl; [exact Hts|]. intros t Ht. by eapply task_ok_extends.
    + constructor; [|constructor]. exact Hk.
Qed.

Lemma start_background_ok (c : Async unit) (s : System) :
  system_ok s -> keeps_registry c (world s) -> system_ok (start_background c s).
Proof.
  intros [Hok Hts] H. apply spawn_ok in H. unfold start_background.
  destruct (spawn c (world s)) as [w' started]. simpl in H.
  destruct H as (Hok' & Hext & Hst). split; [done|]. simpl.
  apply Forall_app. split; [|done].
  eapply list.Forall_impl; [exact Hts|]. intros t Ht. by eapply task_ok_extends.
Qed.

Lemma occur_ok (o : Occurrence) (s : System) :
  system_ok s -> system_ok (occur toUpperCase cfg o s).
Proof.
  intros Hs. destruct o as [c|i r|d| |]; cbn [occur].
  - apply start_tool_ok; [done|]. apply tool_keeps_registry. apply Hs.
  - destruct (tasks s !! i) as [t|] eqn:Hi; [|done].
    destruct Hs as [Hok Hts].
    pose proof (Forall_lookup_1 _ _ _ _ Hts Hi) as Ht.
    assert (Hrest : system_ok {| world := world s; tasks := delete i (tasks s);
                                 replies := replies s |}).
    { split; [done|]. simpl. by apply Forall_delete. }
    destruct t as [rq k|rq k].
    + apply start_tool_ok; [done|]. simpl. apply Ht; auto with registry.
    + apply start_background_ok; [done|]. simpl. apply Ht; auto with registry.
  - destruct Hs as [Hok Hts]. split; simpl; [auto with registry|].
    eapply list.Forall_impl; [exact Hts|]. intros t Ht.
    eapply task_ok_extends; [done|]. auto with registry.
  - destruct Hs as [Hok Hts]. unfold checkStuckTransactions.
    pose proof (sweep_ok (transactionTimeoutMs cfg) (clock (world s))
                  (activeTransactions (world s)) (world s) Hok
                  (snapshot_ok_registry _ Hok)) as H.
    destruct (sweep _ _ _ _) as [w' started]. simpl in H.
    destruct H as (Hok' & Hext & Hst). split; [done|]. simpl.
    apply Forall_app. split; [|done].
    eapply list.Forall_impl; [exact Hts|]. intros t Ht. by eapply task_ok_extends.
  - apply start_background_ok; [done|]. apply cleanupTransactions_keeps_registry. apply Hs.
Qed.

Lemma play_ok (schedule : list Occurrence) : forall s,
  system_ok s -> system_ok (play toUpperCase cfg schedule s).
Proof.
  induction schedule as [|o schedule IH]; intros s Hs; [done|].
  cbn [play foldl]. apply IH. by apply occur_ok.
Qed.

Lemma Reachable_occur (o : Occurrence) (s : System) :
  Reachable toUpperCase cfg s -> Reachable toUpperCase cfg (occur toUpperCase cfg o s).
Proof.
  intros (now & rnd & schedule & ->). exists now, rnd, (schedule ++ [o]).
  unfold play. by rewrite foldl_app.
Qed.

Lemma Reachable_ok (s : System) : Reachable toUpperCase cfg s -> system_ok s.
Proof.
  intros (now & rnd & schedule & ->).
  apply (play_ok schedule (initial now rnd) (initial_ok now rnd)).
Qed.

(** So the shutdown drain finds, whenever it is called, a registry it can
    go through entry by entry ([cleanupTransactions_drains]). *)
Lemma Reachable_bound (s : System) :
  Reachable toUpperCase cfg s -> registry_bound (world s).
Proof. intros Hs. apply registry_ok_bound. apply (Reachable_ok s Hs). Qed.

(** C3: in every state the process can be observed in, that is between
    two turns of the event loop, after any sequence of tool calls, settled
    promises, clock advances, monitor sweeps and shutdown drains, every
    registry entry points to an object whose [released] flag is not set. And
    whenever a turn sets the flag of an object, no entry points to that
    object when the turn ends: the flag is set and the entry removed before
    the task suspends again. *)
Theorem released_entries_are_never_registered (s : System) :
  Reachable toUpperCase cfg s ->
  (forall id transaction,
     (id, transaction) ∈ activeTransactions (world s) ->
     exists o, objects (world s) !! transaction = Some o /\
               tx_id o = id /\ released o = false) /\
  (forall (turn : Occurrence) transaction o o',
     objects (world s) !! transaction = Some o ->
     released o = false ->
     objects (world (occur toUpperCase cfg turn s)) !! transaction = Some o' ->
     released o' = true ->
     forall id, (id, transaction) ∉ activeTransactions (world (occur toUpperCase cfg turn s))).
Proof.
  intros Hs. split.
  - apply (Reachable_ok s Hs).
  - intros turn tx o o' Ho Hrel Ho' Hrel' id Hin.
    destruct (Reachable_ok _ (Reachable_occur turn s Hs)) as [[_ Hok] _].
    destruct (Hok id tx Hin) as (o2 & Ho2 & _ & Hrel2). congruence.
Qed.

End ProcessInvariant.

Lemma released_entries_are_never_registered_witness :
  exists o, objects (world Sample.registered) !! 0%nat = Some o /\
            tx_id o = Sample.id0 /\ released o = false.
Proof.
  refine (proj1 (released_entries_are_never_registered Sample.up defaultConfig
                   Sample.registered _) Sample.id0 0%nat _).
  - exists 1000, Sample.suffix, Sample.write_once. reflexivity.
  - vm_compute. left.
Defined.

(** ** The monitor *)

Lemma forcedRollback_starts id tx o w :
  objects w !! tx = Some o ->
  exists k,
    advance (forcedRollback id tx) w
    = (record_event (EvQuery (client o) ROLLBACK) w,
       Blocked (ClientQuery (client o) ROLLBACK) k) /\
    forall r w', is_Some (objects w' !! tx) ->
      advance (k r) w' = (forced_outcome id tx w', Finished tt).
Proof.
  intros Ho. unfold forcedRollback. simpl. rewrite Ho. simpl.
  eexists. split; [done|]. intros r w' [o' Ho']. unfold forced_outcome.
  destruct r as [res|e]; simpl; rewrite Ho'; simpl;
    destruct (released o'); simpl; try release_cases; simpl; done.
Qed.

Lemma sweep_registry timeout now entries : forall w,
  activeTransactions (sweep timeout now entries w).1 = activeTransactions w.
Proof.
  induction entries as [|[id tx] rest IH]; intros w; [done|].
  cbn [sweep]. destruct (objects w !! tx) as [o|] eqn:Ho; [|done].
  destruct (released o); [apply IH|].
  destruct (_ && _); [|apply IH].
  destruct (forcedRollback_starts id tx (mark_terminating o) (set_terminating tx w))
    as (k & Hadv & _).
  { simpl. by rewrite list_lookup_alter_eq, Ho. }
  unfold spawn. rewrite Hadv.
  specialize (IH (record_event (EvQuery (client (mark_terminating o)) ROLLBACK)
                    (set_terminating tx w))).
  destruct (sweep timeout now rest _) as [w2 more]. simpl in *. done.
Qed.

Lemma sweep_objects_other timeout now entries : forall w tx,
  tx ∉ (snd <$> entries) ->
  objects (sweep timeout now entries w).1 !! tx = objects w !! tx /\
  (forall e, e ∈ trace w -> e ∈ trace (sweep timeout now entries w).1).
Proof.
  induction entries as [|[id tx'] rest IH]; intros w tx Hnot; [done|].
  rewrite fmap_cons in Hnot. apply not_elem_of_cons in Hnot as [Hne Hnot]. cbn [snd] in Hne.
  cbn [sweep]. destruct (objects w !! tx') as [o|] eqn:Ho; [|done].
  destruct (released o); [by apply IH|].
  destruct (_ && _); [|by apply IH].
  destruct (forcedRollback_starts id tx' (mark_terminating o) (set_terminating tx' w))
    as (k & Hadv & _).
  { simpl. by rewrite list_lookup_alter_eq, Ho. }
  unfold spawn. rewrite Hadv.
  specialize (IH (record_event (EvQuery (client (mark_terminating o)) ROLLBACK)
                    (set_terminating tx' w)) tx Hnot).
  destruct (sweep timeout now rest _) as [w2 more]. simpl in *.
  destruct IH as [IH1 IH2]. split.
  - rewrite IH1. by apply list_lookup_alter_ne.
  - intros e He. apply IH2. apply elem_of_app. by left.
Qed.

Lemma sweep_forces timeout now entries : forall w id tx o,
  NoDup (snd <$> entries) ->
  (id, tx) ∈ entries ->
  (forall kv, kv ∈ entries -> is_Some (objects w !! kv.2)) ->
  objects w !! tx = Some o ->
  overdue timeout now o = true ->
  objects (sweep timeout now entries w).1 !! tx = Some (mark_terminating o) /\
  EvQuery (client o) ROLLBACK ∈ trace (sweep timeout now entries w).1 /\
  exists k,
    Background (ClientQuery (client o) ROLLBACK) k ∈ (sweep timeout now entries w).2 /\
    forall r w', is_Some (objects w' !! tx) ->
      advance (k r) w' = (forced_outcome id tx w', Finished tt).
Proof.
  induction entries as [|[id' tx'] rest IH]; intros w id tx o Hnd Hin Hbound Ho Hdue.
  { by apply elem_of_nil in Hin. }
  rewrite fmap_cons in Hnd. apply list.NoDup_cons in Hnd as [Hfresh Hnd]. cbn [snd] in Hfresh.
  apply elem_of_cons in Hin as [[= <- <-]|Hin].
  - cbn [sweep]. rewrite Ho.
    unfold overdue in Hdue. destruct (released o); [done|]. simpl in Hdue. rewrite Hdue.
    destruct (forcedRollback_starts id tx (mark_terminating o) (set_terminating tx w))
      as (k & Hadv & Hk).
    { simpl. by rewrite list_lookup_alter_eq, Ho. }
    unfold spawn. rewrite Hadv.
    pose proof (sweep_objects_other timeout now rest
      (record_event (EvQuery (client (mark_terminating o)) ROLLBACK) (set_terminating tx w))
      tx Hfresh) as [Hobj Htr].
    destruct (sweep timeout now rest _) as [w2 more]. simpl in *.
    split_and!.
    + rewrite Hobj. by rewrite list_lookup_alter_eq, Ho.
    + apply Htr. apply elem_of_app. right. left.
    + exists k. split; [left|done].
  - assert (Hne : tx' <> tx).
    { intros ->. apply Hfresh. apply list_elem_of_fmap. by exists (id, tx). }
    assert (Hrest : forall w1,
      (forall kv, kv ∈ rest -> objects w1 !! kv.2 = objects w !! kv.2) ->
      objects (sweep timeout now rest w1).1 !! tx = Some (mark_terminating o) /\
      EvQuery (client o) ROLLBACK ∈ trace (sweep timeout now rest w1).1 /\
      exists k,
        Background (ClientQuery (client o) ROLLBACK) k ∈ (sweep timeout now rest w1).2 /\
        forall r w', is_Some (objects w' !! tx) ->
          advance (k r) w' = (forced_outcome id tx w', Finished tt)).
    { intros w1 Hsame. apply IH; try done.
      - intros kv Hkv. rewrite Hsame by done. apply Hbound. by right.
      - pose proof (Hsame (id, tx) Hin) as E. cbn [snd] in E. by rewrite E. }
    cbn [sweep]. destruct (Hbound (id', tx') ltac:(left)) as [o' Ho']. cbn [snd] in Ho'.
    rewrite Ho'. destruct (released o'); [by apply Hrest|].
    destruct (_ && _); [|by apply Hrest].
    destruct (forcedRollback_starts id' tx' (mark_terminating o') (set_terminating tx' w))
      as (k' & Hadv & _).
    { simpl. by rewrite list_lookup_alter_eq, Ho'. }
    unfold spawn. rewrite Hadv.
    specialize (Hrest (record_event (EvQuery (client (mark_terminating o')) ROLLBACK)
                         (set_terminating tx' w))).
    destruct (sweep timeout now rest _) as [w2 more]. simpl in *.
    destruct Hrest as (H1 & H2 & k & H3 & H4).
    { intros [id2 tx2] Hkv. simpl. apply list_lookup_alter_ne.
      intros ->. apply Hfresh. apply list_elem_of_fmap. by exists (id2, tx2). }
    split_and!; [done..|]. exists k. split; [by right|done].
Qed.

(** When the monitor timer fires, every registry entry that is not
    released, older than the timeout and still [active] gets its
    state set to [terminating] and a [ROLLBACK] sent on its connection, and a
    task is left waiting for that rollback; whatever the answer, and whatever
    happened meanwhile, that task sets the flag and releases the connection
    unless the flag is set by then, and removes the entry. *)
Lemma checkStuckTransactions_forces (cfg : Config) (w : World) id transaction o :
  registry_ok w ->
  (id, transaction) ∈ activeTransactions w ->
  objects w !! transaction = Some o ->
  overdue (transactionTimeoutMs cfg) (clock w) o = true ->
  activeTransactions (checkStuckTransactions cfg w).1 = activeTransactions w /\
  objects (checkStuckTransactions cfg w).1 !! transaction = Some (mark_terminating o) /\
  EvQuery (client o) ROLLBACK ∈ trace (checkStuckTransactions cfg w).1 /\
  exists k,
    Background (ClientQuery (client o) ROLLBACK) k ∈ (checkStuckTransactions cfg w).2 /\
    forall r w', is_Some (objects w' !! transaction) ->
      advance (k r) w' = (forced_outcome id transaction w', Finished tt).
Proof.
  intros Hok Hin Ho Hdue. destruct (registry_ok_bound w Hok) as [Hbound Hnd].
  unfold checkStuckTransactions. split; [apply sweep_registry|].
  apply sweep_forces; try done.
  intros [id' tx'] Hkv. by eapply Hbound.
Qed.

(** C1, at a commit that arrives while the monitor's rollback is in
    flight: the monitor's task finds the flag unset, sets it and releases the
    connection; the commit handler, which tested the flag before it awaited
    its [COMMIT], then releases the same connection again. *)
Theorem monitor_commit_race_releases_twice :
  Reachable Sample.up defaultConfig Sample.raced /\
  trace (world Sample.raced)
  = [EvAcquire 0%nat; EvQuery 0%nat BEGIN; EvQuery 0%nat Sample.insert_sql;
     EvQuery 0%nat ROLLBACK; EvQuery 0%nat COMMIT;
     EvRelease 0%nat; EvRelease 0%nat] /\
  releases 0%nat (trace (world Sample.raced)) = 2%nat /\
  replies Sample.raced
  = [Pending Sample.id0 (JsString.lit "INSERT") 1 0 15000; Committed Sample.id0] /\
  tasks Sample.raced = [] /\
  activeTransactions (world Sample.raced) = [].
Proof.
  split_and!.
  - exists 1000, Sample.suffix, Sample.race. reflexivity.
  - vm_compute. reflexivity.
  - vm_compute. reflexivity.
  - vm_compute. reflexivity.
  - vm_compute. reflexivity.
  - vm_compute. reflexivity.
Qed.

(** * More on the handlers, the registry and the monitor *)

(** ** Counting on traces *)

Lemma releases_app c tr tr' : releases c (tr ++ tr') = (releases c tr + releases c tr')%nat.
Proof. unfold releases. by rewrite list.filter_app, length_app. Qed.

Lemma releases_cons_release c tr : releases c (EvRelease c :: tr) = S (releases c tr).
Proof. unfold releases. rewrite filter_cons. by rewrite decide_True. Qed.

Lemma releases_cons_other c e tr : e <> EvRelease c -> releases c (e :: tr) = releases c tr.
Proof. intros H. unfold releases. rewrite filter_cons. by rewrite decide_False. Qed.

Lemma releases_nil c : releases c [] = 0%nat.
Proof. done. Qed.

(** ** The client-lease wrapper *)

(** X1: [safelyReleaseClient] calls [client.release()] exactly once and
    never throws, also when [pg] rejects the release because the connection
    was given back before: the call is recorded, the error swallowed, and
    nothing else of the process state changes. *)
Theorem safelyReleaseClient_never_throws (c : PoolClient) (w : World)
    (settle : list (Z * Response)) :
  run (safelyReleaseClient c) w settle
  = (record_event (EvRelease c) w, Finished tt, settle) /\
  releases c (trace (record_event (EvRelease c) w)) = S (releases c (trace w)).
Proof.
  split.
  - unfold safelyReleaseClient, client_release. simpl. by destruct (decide _).
  - cbn [record_event trace]. rewrite releases_app, releases_cons_release, releases_nil. lia.
Qed.

(** ** The read-only query, continued *)

Section ReadQueryMore.

Variable toUpperCase : jsstr -> jsstr.

(** X2: a read-query request that is turned down (no SQL, or a statement
    that is not read-only) releases the connection it acquired twice: once
    in the branch that returns the error and once more in the [finally]
    block. The second [client.release()] is the one [pg] throws on and
    [safelyReleaseClient] swallows. *)
Theorem handleExecuteQuery_rejected_releases_twice (statement : jsstr) (w : World)
    (d : Z) (r : QueryResult) (settle : list (Z * Response)) :
  JsString.falsy statement = true \/ isReadOnlyQuery toUpperCase statement = false ->
  exists w',
    run (handleExecuteQuery toUpperCase statement) w ((d, Resolved r) :: settle)
    = (w', Finished (if JsString.falsy statement then NoSqlProvided else NotReadOnly),
       settle) /\
    trace w' = trace w ++ [EvAcquire (length (trace w)); EvRelease (length (trace w));
                           EvRelease (length (trace w))] /\
    releases (length (trace w)) (trace w') = (releases (length (trace w)) (trace w) + 2)%nat.
Proof.
  intros H. eexists. split; [by apply handleExecuteQuery_rejected|].
  assert (Htr : forall c, trace (record_event (EvRelease c)
             (record_event (EvRelease c) (record_event (EvAcquire c) (tick d w))))
           = trace w ++ [EvAcquire c; EvRelease c; EvRelease c]).
  { intros c. simpl. by rewrite <- !app_assoc. }
  split; [apply Htr|]. rewrite Htr, releases_app.
  rewrite releases_cons_other by done. rewrite !releases_cons_release, releases_nil. lia.
Qed.

(** X3: a read-only statement that the database answers runs inside its
    own read-only transaction on a fresh connection: [BEGIN TRANSACTION READ
    ONLY], the statement, [COMMIT], then one release. The result carries the
    rows, the row count and the time the statement took; the registry of
    open transactions is not touched. *)
Theorem handleExecuteQuery_answers (statement : jsstr) (w : World)
    (d0 : Z) (r0 : QueryResult) (d1 : Z) (r1 : QueryResult) (d2 : Z) (res : QueryResult)
    (d3 : Z) (r3 : QueryResult) (settle : list (Z * Response)) :
  JsString.falsy statement = false ->
  isReadOnlyQuery toUpperCase statement = true ->
  exists w',
    run (handleExecuteQuery toUpperCase statement) w
      ((d0, Resolved r0) :: (d1, Resolved r1) :: (d2, Resolved res) :: (d3, Resolved r3) :: settle)
    = (w', Finished (QueryRows (rows res) (rowCount res) d2), settle) /\
    trace w' = trace w ++ [EvAcquire (length (trace w));
                           EvQuery (length (trace w)) BEGIN_READ_ONLY;
                           EvQuery (length (trace w)) statement;
                           EvQuery (length (trace w)) COMMIT;
                           EvRelease (length (trace w))] /\
    activeTransactions w' = activeTransactions w /\
    objects w' = objects w.
Proof.
  intros Hs Hro. unfold handleExecuteQuery. simpl. rewrite Hs, Hro. simpl.
  replace (clock w + d0 + d1 + d2 - (clock w + d0 + d1)) with d2 by lia.
  release_cases; simpl; (eexists; split; [done|]); simpl;
    (split_and!; [by rewrite <- !app_assoc|done|done]).
Qed.

(** X4: once the pool has handed out a connection for a read-only
    statement, whatever the database answers and however many of the answers
    have arrived: the handler has only sent statements on that connection
    while it waits, and when it has returned or thrown it has released the
    connection exactly once, as its last action. It never touches the
    registry. *)
Theorem handleExecuteQuery_releases_once (statement : jsstr) (w : World)
    (d0 : Z) (r0 : QueryResult) (settle : list (Z * Response)) :
  JsString.falsy statement = false ->
  isReadOnlyQuery toUpperCase statement = true ->
  let c := length (trace w) in
  let result := run (handleExecuteQuery toUpperCase statement) w ((d0, Resolved r0) :: settle) in
  (exists sent,
     Forall (sent_on c) sent /\
     trace result.1.1
     = trace w ++ EvAcquire c :: sent ++ (if is_blocked result.1.2 then [] else [EvRelease c])) /\
  activeTransactions result.1.1 = activeTransactions w /\
  objects result.1.1 = objects w.
Proof.
  intros Hs Hro c result. subst result. unfold handleExecuteQuery. simpl. rewrite Hs, Hro. simpl.
  assert (Hq : forall text, sent_on c (EvQuery c text)) by (intros; by eexists).
  destruct settle as [|[d1 [r1|e1]] settle]; simpl.
  - split; [|done]. eexists [_]. split; [repeat constructor; apply Hq|].
    rewrite <- !app_assoc. done.
  - destruct settle as [|[d2 [r2|e2]] settle]; simpl.
    + split; [|done]. eexists [_; _]. split; [repeat constructor; apply Hq|].
      rewrite <- !app_assoc. done.
    + destruct settle as [|[d3 [r3|e3]] settle]; simpl.
      * split; [|done]. eexists [_; _; _]. split; [repeat constructor; apply Hq|].
        rewrite <- !app_assoc. done.
      * release_cases; simpl; (split; [|done]); eexists [_; _; _];
          (split; [repeat constructor; apply Hq|]); rewrite <- !app_assoc; done.
      * release_cases; simpl; (split; [|done]); eexists [_; _; _];
          (split; [repeat constructor; apply Hq|]); rewrite <- !app_assoc; done.
    + release_cases; simpl; (split; [|done]); eexists [_; _];
        (split; [repeat constructor; apply Hq|]); rewrite <- !app_assoc; done.
  - release_cases; simpl; (split; [|done]); eexists [_];
      (split; [repeat constructor; apply Hq|]); rewrite <- !app_assoc; done.
Qed.

End ReadQueryMore.

(** [insert into t values (1)] is turned down and its connection released
    twice. *)
Lemma handleExecuteQuery_rejected_releases_twice_witness :
  exists w',
    run (handleExecuteQuery Sample.up Sample.insert_sql) Sample.w0 [(0, Sample.leased)]
    = (w', Finished NotReadOnly, []) /\
    trace w' = [EvAcquire 0%nat; EvRelease 0%nat; EvRelease 0%nat] /\
    releases 0%nat (trace w') = 2%nat.
Proof.
  apply (handleExecuteQuery_rejected_releases_twice Sample.up Sample.insert_sql Sample.w0
           0 (mkQueryResult [] 0 []) []).
  right. reflexivity.
Defined.

Lemma handleExecuteQuery_answers_witness :
  exists w',
    run (handleExecuteQuery Sample.up Sample.select_sql) Sample.w0
      [(0, Sample.leased); (1, Sample.answered "BEGIN" 0); (7, Sample.answered "SELECT" 1);
       (1, Sample.answered "COMMIT" 0)]
    = (w', Finished (QueryRows [] 1 7), []) /\
    trace w' = [EvAcquire 0%nat; EvQuery 0%nat BEGIN_READ_ONLY;
                EvQuery 0%nat Sample.select_sql; EvQuery 0%nat COMMIT; EvRelease 0%nat] /\
    activeTransactions w' = [] /\
    objects w' = [].
Proof.
  apply (handleExecuteQuery_answers Sample.up Sample.select_sql Sample.w0
           0 (mkQueryResult [] 0 []) 1 (mkQueryResult (JsString.lit "BEGIN") 0 [])
           7 (mkQueryResult (JsString.lit "SELECT") 1 [])
           1 (mkQueryResult (JsString.lit "COMMIT") 0 []) []); reflexivity.
Defined.

(** The statement is rejected by the database: two statements were sent,
    then the connection was released. *)
Lemma handleExecuteQuery_releases_once_witness :
  exists sent,
    Forall (sent_on 0%nat) sent /\
    trace (run (handleExecuteQuery Sample.up Sample.select_sql) Sample.w0
             [(0, Sample.leased); (1, Sample.answered "BEGIN" 0);
              (3, Rejected Sample.boom)]).1.1
    = EvAcquire 0%nat :: sent ++ [EvRelease 0%nat].
Proof.
  apply (handleExecuteQuery_releases_once Sample.up Sample.select_sql Sample.w0
           0 (mkQueryResult [] 0 [])
           [(1, Sample.answered "BEGIN" 0); (3, Rejected Sample.boom)]); reflexivity.
Defined.

(** ** The write, explicit commit and explicit rollback, continued *)

(** X5: the two early exits of [handleExecuteDML]. Without SQL it has
    acquired a connection by then and releases it once, unused. When the
    database rejects [BEGIN] the connection is released, the error is thrown
    to the caller, and neither an identifier is drawn nor an entry
    registered. *)
Theorem handleExecuteDML_early_exits (statement : jsstr) (timeout : Z) (w : World)
    (d0 : Z) (r0 : QueryResult) (settle : list (Z * Response)) :
  let c := length (trace w) in
  (JsString.falsy statement = true ->
     exists w',
       run (handleExecuteDML statement timeout) w ((d0, Resolved r0) :: settle)
       = (w', Finished NoSqlProvided, settle) /\
       trace w' = trace w ++ [EvAcquire c; EvRelease c] /\
       activeTransactions w' = activeTransactions w) /\
  (JsString.falsy statement = false ->
     forall d1 e,
     exists w',
       run (handleExecuteDML statement timeout) w
         ((d0, Resolved r0) :: (d1, Rejected e) :: settle)
       = (w', Raised e, settle) /\
       trace w' = trace w ++ [EvAcquire c; EvQuery c BEGIN; EvRelease c] /\
       activeTransactions w' = activeTransactions w /\
       draws w' = draws w).
Proof.
  intros c. split; intros Hs.
  - unfold handleExecuteDML. simpl. rewrite Hs. simpl.
    release_cases; simpl; (eexists; split; [done|]); simpl;
      (split; [by rewrite <- !app_assoc|done]).
  - intros d1 e. unfold handleExecuteDML. simpl. rewrite Hs. simpl.
    release_cases; simpl; (eexists; split; [done|]); simpl;
      (split_and!; [by rewrite <- !app_assoc|done|done]).
Qed.

Lemma handleExecuteDML_early_exits_witness :
  (exists w',
     run (handleExecuteDML [] 15000) Sample.w0 [(0, Sample.leased)]
     = (w', Finished NoSqlProvided, []) /\
     trace w' = [EvAcquire 0%nat; EvRelease 0%nat] /\
     activeTransactions w' = []) /\
  (exists w',
     run (handleExecuteDML Sample.insert_sql 15000) Sample.w0
       [(0, Sample.leased); (1, Rejected Sample.gone)]
     = (w', Raised Sample.gone, []) /\
     trace w' = [EvAcquire 0%nat; EvQuery 0%nat BEGIN; EvRelease 0%nat] /\
     activeTransactions w' = [] /\
     draws w' = 0%nat).
Proof.
  split.
  - apply (proj1 (handleExecuteDML_early_exits [] 15000 Sample.w0
                    0 (mkQueryResult [] 0 []) [])).
    reflexivity.
  - apply (proj2 (handleExecuteDML_early_exits Sample.insert_sql 15000 Sample.w0
                    0 (mkQueryResult [] 0 []) [])).
    reflexivity.
Defined.


(** X6: when the database rejects the [COMMIT] of a registered, unreleased
    transaction, [handleExecuteCommit] sends a [ROLLBACK] on the same
    connection and, whatever the answer to that rollback, sets the flag,
    releases the connection once, removes the entry and reports the error of
    the [COMMIT]. *)
Theorem handleExecuteCommit_failed (id : jsstr) (w : World) (transaction : TxRef)
    (o : TrackedTransaction) (d : Z) (e : Error) (d' : Z) (y : Response)
    (settle : list (Z * Response)) :
  JsString.falsy id = false ->
  getTransaction id w = Some transaction ->
  objects w !! transaction = Some o ->
  released o = false ->
  exists w',
    run (handleExecuteCommit id) w ((d, Rejected e) :: (d', y) :: settle)
    = (w', Finished (CommitFailed (message e) id), settle) /\
    trace w' = trace w ++ [EvQuery (client o) COMMIT; EvQuery (client o) ROLLBACK;
                           EvRelease (client o)] /\
    activeTransactions w' = JsMap.delete id (activeTransactions w) /\
    hasTransaction id w' = false /\
    objects w' !! transaction = Some (mark_released o).
Proof.
  intros Hid Hget Ho Hrel. unfold handleExecuteCommit. rewrite Hid. simpl.
  rewrite (has_getTransaction _ _ _ Hget). simpl. rewrite Hget. simpl.
  rewrite Ho. simpl. rewrite Hrel. simpl.
  destruct y as [r'|e']; simpl; release_cases; simpl;
    (eexists; split; [done|]); simpl;
    (split_and!;
       [ by rewrite <- !app_assoc
       | done
       | apply (hasTransaction_removeTransaction id
                  (record_event _ (set_released transaction
                     (tick d' (record_event _ (tick d (record_event _ w)))))))
       | by rewrite list_lookup_alter_eq, Ho ]).
Qed.

Lemma handleExecuteCommit_failed_witness :
  exists w',
    run (handleExecuteCommit Sample.id0) Sample.w1
      [(1, Rejected Sample.boom); (1, Rejected Sample.gone)]
    = (w', Finished (CommitFailed (message Sample.boom) Sample.id0), []) /\
    trace w' = [EvQuery 0%nat COMMIT; EvQuery 0%nat ROLLBACK; EvRelease 0%nat] /\
    activeTransactions w' = [] /\
    hasTransaction Sample.id0 w' = false /\
    (exists o', objects w' !! 0%nat = Some o' /\ released o' = true).
Proof.
  destruct (handleExecuteCommit_failed Sample.id0 Sample.w1 0%nat _
              1 Sample.boom 1 (Rejected Sample.gone) [] eq_refl eq_refl eq_refl eq_refl)
    as (w' & Hrun & Htr & Hreg & Hhas & Hobj).
  exists w'. split_and!; [exact Hrun|exact Htr|exact Hreg|exact Hhas|].
  eexists. split; [exact Hobj|reflexivity].
Defined.

(** X7: [handleExecuteRollback] on a registered, unreleased transaction
    sends one [ROLLBACK] and then lets go of the transaction whether the
    database accepted the rollback or not: flag set, one release, entry
    removed. Only the result differs. *)
Theorem handleExecuteRollback_outcomes (id : jsstr) (w : World) (transaction : TxRef)
    (o : TrackedTransaction) (d : Z) (y : Response) (settle : list (Z * Response)) :
  JsString.falsy id = false ->
  getTransaction id w = Some transaction ->
  objects w !! transaction = Some o ->
  released o = false ->
  run (handleExecuteRollback id) w ((d, y) :: settle)
  = (resolved_with ROLLBACK id transaction o d w,
     Finished (match y with
               | Resolved _ => RolledBack id
               | Rejected e => RollbackFailed (message e) id
               end),
     settle) /\
  trace (resolved_with ROLLBACK id transaction o d w)
  = trace w ++ [EvQuery (client o) ROLLBACK; EvRelease (client o)] /\
  hasTransaction id (resolved_with ROLLBACK id transaction o d w) = false /\
  objects (resolved_with ROLLBACK id transaction o d w) !! transaction
  = Some (mark_released o).
Proof.
  intros Hid Hget Ho Hrel. split_and!.
  - unfold handleExecuteRollback. rewrite Hid. simpl.
    rewrite (has_getTransaction _ _ _ Hget). simpl. rewrite Hget. simpl.
    rewrite Ho. simpl. rewrite Hrel. simpl.
    destruct y as [r|e]; simpl; release_cases; simpl; done.
  - simpl. by rewrite <- !app_assoc.
  - apply hasTransaction_removeTransaction.
  - simpl. by rewrite list_lookup_alter_eq, Ho.
Qed.

Lemma handleExecuteRollback_outcomes_witness :
  exists w',
    run (handleExecuteRollback Sample.id0) Sample.w1 [(1, Rejected Sample.gone)]
    = (w', Finished (RollbackFailed (message Sample.gone) Sample.id0), []) /\
    trace w' = [EvQuery 0%nat ROLLBACK; EvRelease 0%nat] /\
    hasTransaction Sample.id0 w' = false.
Proof.
  destruct (handleExecuteRollback_outcomes Sample.id0 Sample.w1 0%nat _
              1 (Rejected Sample.gone) [] eq_refl eq_refl eq_refl eq_refl)
    as (Hrun & Htr & Hhas & _).
  eexists. split_and!; [exact Hrun|exact Htr|exact Hhas].
Defined.

(** X8: the [execute_rollback] tool as the [McpServer] entry point
    registers it differs from [handleExecuteRollback]: when the database
    rejects the [ROLLBACK], the tool reports the error and leaves the
    transaction as it was, registered and holding its connection, with the
    flag unset and nothing released. *)
Theorem execute_rollback_rejected_keeps_entry (id : jsstr) (w : World) (transaction : TxRef)
    (o : TrackedTransaction) (d : Z) (e : Error) (settle : list (Z * Response)) :
  getTransaction id w = Some transaction ->
  objects w !! transaction = Some o ->
  released o = false ->
  exists w',
    run (execute_rollback id) w ((d, Rejected e) :: settle)
    = (w', Finished (ToolError (message e)), settle) /\
    trace w' = trace w ++ [EvQuery (client o) ROLLBACK] /\
    activeTransactions w' = activeTransactions w /\
    objects w' = objects w.
Proof.
  intros Hget Ho Hrel. unfold execute_rollback. simpl.
  rewrite (has_getTransaction _ _ _ Hget). simpl. rewrite Hget. simpl.
  rewrite Ho. simpl. rewrite Hrel. simpl.
  eexists. split; [done|]. simpl. done.
Qed.

Lemma execute_rollback_rejected_keeps_entry_witness :
  exists w',
    run (execute_rollback Sample.id0) Sample.w1 [(1, Rejected Sample.gone)]
    = (w', Finished (ToolError (message Sample.gone)), []) /\
    trace w' = [EvQuery 0%nat ROLLBACK] /\
    activeTransactions w' = activeTransactions Sample.w1 /\
    objects w' = objects Sample.w1.
Proof.
  apply (execute_rollback_rejected_keeps_entry Sample.id0 Sample.w1 0%nat _
           1 Sample.gone [] eq_refl eq_refl eq_refl).
Defined.

Lemma delete_set_fresh {V} (k : jsstr) (v : V) (m : list (jsstr * V)) :
  JsMap.has k m = false -> JsMap.delete k (JsMap.set k v m) = m.
Proof.
  unfold JsMap.has, JsMap.delete. induction m as [|[k' v'] m IH]; simpl.
  - intros _. rewrite filter_cons. simpl. by rewrite decide_False by tauto.
  - destruct (decide (k' = k)) as [->|Hne]; [done|]. intros H.
    rewrite filter_cons. simpl. rewrite decide_True by done. by rewrite IH.
Qed.



(** X10: the [execute_dml_ddl_dcl_tcl] tool compares the number of open
    transactions with the ceiling once, on entry, before it waits for a
    connection. A call admitted below the ceiling registers its transaction
    in whatever state the registry is by the time the connection and the
    answers have arrived, without looking at the ceiling again. *)
Theorem ceiling_checked_on_entry_only (cfg : Config) (statement : jsstr) (w : World) :
  transactionCount w < maxConcurrentTransactions cfg ->
  JsString.falsy statement = false ->
  exists k,
    advance (execute_dml_ddl_dcl_tcl cfg statement) w = (w, Blocked PoolConnect k) /\
    forall (w' : World) r0 d1 r1 d2 res settle,
      let id := generateTransactionId (clock w' + d1) (random w' (draws w')) in
      exists w'',
        run (k (Resolved r0)) w' ((d1, Resolved r1) :: (d2, Resolved res) :: settle)
        = (w'',
           Finished (Pending id (command res) (rowCount res) d2 (transactionTimeoutMs cfg)),
           settle) /\
        activeTransactions w'' = JsMap.set id (length (objects w')) (activeTransactions w') /\
        (hasTransaction id w' = false -> transactionCount w'' = transactionCount w' + 1).
Proof.
  intros Hcount Hs. unfold execute_dml_ddl_dcl_tcl. simpl.
  destruct (Z.geb_spec (transactionCount w) (maxConcurrentTransactions cfg)); [lia|].
  simpl. eexists. split; [done|].
  intros w' r0 d1 r1 d2 res settle. simpl. rewrite Hs. simpl.
  eexists. split_and!.
  - replace (clock w' + d1 + d2 - (clock w' + d1)) with d2 by lia. done.
  - done.
  - intros Hnew. unfold transactionCount. simpl. by apply JsMapFacts.size_set_new.
Qed.

(** A call admitted while the registry was empty goes on in a state where
    the one admitted transaction is already open: afterwards two are. *)
Lemma ceiling_checked_on_entry_only_witness :
  exists k,
    advance (execute_dml_ddl_dcl_tcl Sample.cfg1 Sample.insert_sql) Sample.w0
    = (Sample.w0, Blocked PoolConnect k) /\
    exists w'',
      (run (k Sample.leased) Sample.w1
         [(5, Sample.answered "BEGIN" 0); (5, Sample.answered "INSERT" 1)]).1.1 = w'' /\
      transactionCount w'' = 2.
Proof.
  destruct (ceiling_checked_on_entry_only Sample.cfg1 Sample.insert_sql Sample.w0)
    as (k & Hadv & Hk); [vm_compute; reflexivity | reflexivity |].
  exists k. split; [exact Hadv|].
  destruct (Hk Sample.w1 (mkQueryResult [] 0 []) 5 (mkQueryResult (JsString.lit "BEGIN") 0 [])
              5 (mkQueryResult (JsString.lit "INSERT") 1 []) [])
    as (w'' & Hrun & _ & Hcount).
  exists w''. split.
  - unfold Sample.leased, Sample.answered. by rewrite Hrun.
  - apply Hcount. vm_compute. reflexivity.
Defined.

Lemma run_try_catch_Ret {A} (c : Async A) (h : Error -> A) (w : World) settle :
  forall w' e rest, run (try_catch c (fun err => Ret (h err))) w settle <> (w', Raised e, rest).
Proof.
  intros w' e rest. rewrite run_try_catch.
  destruct (run c w settle) as [[w1 [a|e1|rq k]] rest1]; simpl; congruence.
Qed.

(** X11: none of the transaction tools ([execute_query],
    [execute_dml_ddl_dcl_tcl], [execute_commit], [execute_rollback]) ever
    throws to its caller: whatever the pool and the database answer, a call
    waits, or returns a result (an error result when a handler threw). *)
Theorem tool_never_throws (toUpperCase : jsstr -> jsstr) (cfg : Config) (c : Call)
    (w : World) (settle : list (Z * Response)) :
  forall w' e rest, run (tool toUpperCase cfg c) w settle <> (w', Raised e, rest).
Proof.
  destruct c; cbn [tool]; apply run_try_catch_Ret.
Qed.

(** ** The monitor, continued *)


Lemma sweep_quiet timeout now entries : forall w,
  (forall id tx o, (id, tx) ∈ entries -> objects w !! tx = Some o ->
     overdue timeout now o = false) ->
  sweep timeout now entries w = (w, []).
Proof.
  induction entries as [|[id tx] rest IH]; intros w H; [done|].
  assert (Hrest : sweep timeout now rest w = (w, [])).
  { apply IH. intros id' tx' o' Hin. apply (H id'). by right. }
  cbn [sweep]. destruct (objects w !! tx) as [o|] eqn:Ho; [|done].
  pose proof (H id tx o ltac:(left) Ho) as Hdue. unfold overdue in Hdue.
  destruct (released o); [done|]. simpl in Hdue. by rewrite Hdue.
Qed.





(** X13: a sweep changes nothing and starts no task when every entry is
    released, or is no older than the timeout (an entry whose age equals the
    timeout is not yet overdue), or is already being terminated. *)
Theorem checkStuckTransactions_quiet (cfg : Config) (w : World) :
  (forall id transaction o,
     (id, transaction) ∈ activeTransactions w -> objects w !! transaction = Some o ->
     released o = true \/ clock w - startTime o <= transactionTimeoutMs cfg \/
     state o = terminating) ->
  checkStuckTransactions cfg w = (w, []).
Proof.
  intros H. unfold checkStuckTransactions. apply sweep_quiet.
  intros id tx o Hin Ho. unfold overdue.
  destruct (H id tx o Hin Ho) as [-> | [Hage | ->]]; [done| |by rewrite andb_false_r].
  destruct (Z.gtb_spec (clock w - startTime o) (transactionTimeoutMs cfg)); [lia|].
  by rewrite andb_false_r.
Qed.

(** A transaction exactly as old as the timeout is left alone. *)
Lemma checkStuckTransactions_quiet_witness :
  checkStuckTransactions Sample.cfg1 (tick 100 Sample.w1) = (tick 100 Sample.w1, []).
Proof.
  apply (checkStuckTransactions_quiet Sample.cfg1 (tick 100 Sample.w1)).
  intros id tx o Hin Ho. right. left.
  apply list_elem_of_singleton in Hin. injection Hin as -> ->.
  vm_compute in Ho. injection Ho as <-. vm_compute. discriminate.
Defined.

Lemma registry_ok_sample : registry_ok Sample.w1.
Proof.
  split.
  - apply (bool_decide_unpack _). by vm_compute.
  - intros id tx Hin. apply list_elem_of_singleton in Hin. injection Hin as -> ->.
    eexists. split; [reflexivity|]. split; reflexivity.
Qed.

(** X14: an overdue transaction nobody commits or rolls back is let go by
    the monitor alone. The sweep starts a task that waits for its [ROLLBACK];
    when the answer arrives, whether the database accepted the rollback or
    not, the task sets the flag, releases the connection once and removes
    the entry. *)
Theorem monitor_unattended (cfg : Config) (w : World) (id : jsstr) (transaction : TxRef)
    (o : TrackedTransaction) :
  registry_ok w ->
  (id, transaction) ∈ activeTransactions w ->
  objects w !! transaction = Some o ->
  overdue (transactionTimeoutMs cfg) (clock w) o = true ->
  exists k,
    Background (ClientQuery (client o) ROLLBACK) k ∈ (checkStuckTransactions cfg w).2 /\
    forall r d,
    exists w',
      advance (k r) (tick d (checkStuckTransactions cfg w).1) = (w', Finished tt) /\
      trace w' = trace (checkStuckTransactions cfg w).1 ++ [EvRelease (client o)] /\
      hasTransaction id w' = false /\
      objects w' !! transaction = Some (mark_released (mark_terminating o)).
Proof.
  intros Hok Hin Ho Hdue.
  destruct (checkStuckTransactions_forces cfg w id transaction o Hok Hin Ho Hdue)
    as (Hreg & Hobj & Htr & k & Hk & Hadv).
  exists k. split; [done|]. intros r d.
  set (w1 := (checkStuckTransactions cfg w).1) in *.
  assert (Ho1 : objects (tick d w1) !! transaction = Some (mark_terminating o)) by done.
  eexists. split; [apply Hadv; by eexists|].
  unfold forced_outcome. rewrite Ho1. cbn [released mark_terminating].
  unfold overdue in Hdue. destruct (released o); [done|]. split_and!.
  - done.
  - apply hasTransaction_removeTransaction.
  - simpl. fold w1. rewrite list_lookup_alter_eq.
    change (objects w1 !! transaction) with (objects (tick d w1) !! transaction).
    by rewrite Ho1.
Qed.

Lemma monitor_unattended_witness :
  exists k,
    Background (ClientQuery 0%nat ROLLBACK) k
      ∈ (checkStuckTransactions Sample.cfg1 (tick 500 Sample.w1)).2 /\
    forall r d,
    exists w',
      advance (k r) (tick d (checkStuckTransactions Sample.cfg1 (tick 500 Sample.w1)).1)
      = (w', Finished tt) /\
      trace w' = [EvQuery 0%nat ROLLBACK; EvRelease 0%nat] /\
      hasTransaction Sample.id0 w' = false.
Proof.
  destruct (monitor_unattended Sample.cfg1 (tick 500 Sample.w1) Sample.id0 0%nat _
              registry_ok_sample ltac:(left) eq_refl eq_refl) as (k & Hk & Hrun).
  exists k. split; [exact Hk|]. intros r d.
  destruct (Hrun r d) as (w' & Hadv & Htr & Hhas & _).
  exists w'. split_and!; [exact Hadv|exact Htr|exact Hhas].
Defined.

(** X15: the monitor's task looks at the flag again after its [ROLLBACK]
    has settled. When somebody else has set it in the meantime, the task
    releases nothing and only removes the entry. *)
Theorem monitor_task_respects_flag (cfg : Config) (w : World) (id : jsstr)
    (transaction : TxRef) (o : TrackedTransaction) :
  registry_ok w ->
  (id, transaction) ∈ activeTransactions w ->
  objects w !! transaction = Some o ->
  overdue (transactionTimeoutMs cfg) (clock w) o = true ->
  exists k,
    Background (ClientQuery (client o) ROLLBACK) k ∈ (checkStuckTransactions cfg w).2 /\
    forall r w' o',
      objects w' !! transaction = Some o' -> released o' = true ->
      advance (k r) w' = (removeTransaction id w', Finished tt) /\
      trace (removeTransaction id w') = trace w'.
Proof.
  intros Hok Hin Ho Hdue.
  destruct (checkStuckTransactions_forces cfg w id transaction o Hok Hin Ho Hdue)
    as (_ & _ & _ & k & Hk & Hadv).
  exists k. split; [done|]. intros r w' o' Ho' Hrel'. split; [|done].
  rewrite Hadv by by eexists. unfold forced_outcome. by rewrite Ho', Hrel'.
Qed.

(** The state the task finds is one in which an explicit rollback has let
    go of the transaction already. *)
Lemma monitor_task_respects_flag_witness :
  exists k,
    Background (ClientQuery 0%nat ROLLBACK) k
      ∈ (checkStuckTransactions Sample.cfg1 (tick 500 Sample.w1)).2 /\
    forall r,
      let w' := resolved_with ROLLBACK Sample.id0 0%nat
                  {| tx_id := Sample.id0; client := 0%nat; startTime := 1000;
                     sql := Sample.insert_sql; state := terminating; released := false |}
                  3 (checkStuckTransactions Sample.cfg1 (tick 500 Sample.w1)).1 in
      advance (k r) w' = (removeTransaction Sample.id0 w', Finished tt) /\
      trace (removeTransaction Sample.id0 w') = trace w'.
Proof.
  destruct (monitor_task_respects_flag Sample.cfg1 (tick 500 Sample.w1) Sample.id0 0%nat _
              registry_ok_sample ltac:(left) eq_refl eq_refl) as (k & Hk & Hrun).
  exists k. split; [exact Hk|]. intros r w'.
  eapply Hrun.
  - vm_compute. reflexivity.
  - reflexivity.
Defined.

(** ** Strings, continued *)

Module JsStringMore.
Import JsString.

Lemma trimStart_ws_app (pre s : t) :
  Forall (fun u => isWhiteSpace u = true) pre -> trimStart (pre ++ s) = trimStart s.
Proof. induction 1 as [|u pre Hu _ IH]; simpl; [done|]. by rewrite Hu. Qed.

Lemma trimStart_ws (pre : t) :
  Forall (fun u => isWhiteSpace u = true) pre -> trimStart pre = [].
Proof. intros H. rewrite <- (app_nil_r pre). by rewrite trimStart_ws_app. Qed.

Lemma trimStart_app_keep (s post : t) :
  trimStart s <> [] -> trimStart (s ++ post) = trimStart s ++ post.
Proof.
  induction s as [|u s IH]; simpl; [done|].
  destruct (isWhiteSpace u); [exact IH | done].
Qed.

Lemma trimEnd_ws_app (s post : t) :
  Forall (fun u => isWhiteSpace u = true) post -> trimEnd (s ++ post) = trimEnd s.
Proof.
  intros H. unfold trimEnd. rewrite rev_app_distr.
  rewrite trimStart_ws_app; [done|]. by apply Forall_rev.
Qed.

Lemma trim_surrounding (pre s post : t) :
  Forall (fun u => isWhiteSpace u = true) pre ->
  Forall (fun u => isWhiteSpace u = true) post ->
  trim (pre ++ s ++ post) = trim s.
Proof.
  intros Hpre Hpost. unfold trim. rewrite trimStart_ws_app by done.
  destruct (trimStart s) as [|u x] eqn:E.
  - assert (Hs : Forall (fun u => isWhiteSpace u = true) s).
    { destruct (JsStringFacts.trimStart_split s) as [p [H1 H2]].
      rewrite E, app_nil_r in H1. by subst p. }
    rewrite trimStart_ws; [done|]. by apply Forall_app.
  - rewrite trimStart_app_keep by (rewrite E; done). rewrite E.
    by apply trimEnd_ws_app.
Qed.

Lemma trimStart_stops (a : t) (u : N) (b : t) :
  isWhiteSpace u = false -> exists a', trimStart (a ++ u :: b) = a' ++ u :: b.
Proof.
  intros Hu. induction a as [|v a [a' IH]]; simpl.
  - rewrite Hu. by exists [].
  - destruct (isWhiteSpace v); [by exists a' | by exists (v :: a)].
Qed.

Lemma trimEnd_stops (a : t) (v : N) (rest : t) :
  isWhiteSpace v = false -> exists rest', trimEnd (a ++ v :: rest) = a ++ v :: rest'.
Proof.
  intros Hv. unfold trimEnd. rewrite rev_app_distr. cbn [rev].
  rewrite <- app_assoc. cbn [app].
  destruct (trimStart_stops (rev rest) v (rev a) Hv) as [a' E]. rewrite E.
  exists (rev a'). rewrite rev_app_distr. cbn [rev].
  rewrite rev_involutive, <- app_assoc. done.
Qed.

(** A statement that starts and ends its first word with something else
    than white space keeps that word under [trim]. *)
Lemma trim_keeps_word (u : N) (x : t) (v : N) (rest : t) :
  isWhiteSpace u = false -> isWhiteSpace v = false ->
  exists rest', trim (u :: x ++ v :: rest) = u :: x ++ v :: rest'.
Proof.
  intros Hu Hv. unfold trim. cbn [trimStart]. rewrite Hu.
  apply (trimEnd_stops (u :: x) v rest Hv).
Qed.

Lemma ofZ_no_underscore (z : Z) : Forall (fun u => u <> 95%N) (ofZ z).
Proof.
  assert (Hu : forall d, Forall (fun u => u <> 95%N) (lit (NilEmpty.string_of_uint d))).
  { induction d; simpl; constructor; done. }
  assert (Hz : forall d, Forall (fun u => u <> 95%N) (lit (NilZero.string_of_uint d))).
  { intros d. destruct d; try apply Hu. repeat constructor. done. }
  unfold ofZ. destruct (Z.to_int z) as [d|d]; simpl.
  - apply Hz.
  - constructor; [done|]. apply Hz.
Qed.

Lemma lit_inj (s s' : string) : lit s = lit s' -> s = s'.
Proof.
  revert s'. induction s as [|a s IH]; intros [|a' s'] H; try done.
  unfold lit in H. simpl in H. injection H as Ha Hs.
  f_equal; [|by apply IH].
  rewrite <- (ascii_N_embedding a), <- (ascii_N_embedding a'). by rewrite Ha.
Qed.

Lemma to_int_not_nil (z : Z) :
  Z.to_int z <> Decimal.Pos Decimal.Nil /\ Z.to_int z <> Decimal.Neg Decimal.Nil.
Proof.
  destruct z as [|p|p]; simpl; split; try done; intros [= H];
    by apply DecimalPos.Unsigned.to_uint_nonnil in H.
Qed.

Lemma ofZ_inj (z z' : Z) : ofZ z = ofZ z' -> z = z'.
Proof.
  unfold ofZ. intros H. apply lit_inj in H. apply DecimalZ.to_int_inj.
  destruct (to_int_not_nil z) as [Hp Hn]. destruct (to_int_not_nil z') as [Hp' Hn'].
  pose proof (NilZero.isi (Z.to_int z) Hp Hn) as E.
  rewrite H, (NilZero.isi _ Hp' Hn') in E. congruence.
Qed.

Lemma split_at_first (x x' b b' : t) (sep : N) :
  Forall (fun u => u <> sep) x -> Forall (fun u => u <> sep) x' ->
  x ++ sep :: b = x' ++ sep :: b' -> x = x' /\ b = b'.
Proof.
  intros Hx. revert x'. induction Hx as [|u x Hu Hx IH]; intros x' Hx' H.
  - destruct Hx' as [|u' x' Hu' Hx']; simpl in H.
    + by injection H.
    + injection H as -> _. done.
  - destruct Hx' as [|u' x' Hu' Hx']; simpl in H.
    + injection H as -> H. done.
    + injection H as -> H. destruct (IH _ Hx' H) as [-> ->]. done.
Qed.

End JsStringMore.

(** ** Transaction identifiers *)

(** X16: [generateTransactionId] loses nothing of its two inputs: two
    identifiers are equal only when they were made at the same millisecond
    from the same random suffix. Two writes registered in the same
    millisecond are kept apart by the random suffix alone. *)
Theorem generateTransactionId_injective (now now' : Z) (suffix suffix' : jsstr) :
  generateTransactionId now suffix = generateTransactionId now' suffix' ->
  now = now' /\ suffix = suffix'.
Proof.
  unfold generateTransactionId. intros H. apply app_inv_head in H.
  change (JsString.lit "_" ++ suffix) with (95%N :: suffix) in H.
  change (JsString.lit "_" ++ suffix') with (95%N :: suffix') in H.
  apply JsStringMore.split_at_first in H as [H1 H2];
    try apply JsStringMore.ofZ_no_underscore.
  split; [by apply JsStringMore.ofZ_inj | done].
Qed.

Lemma generateTransactionId_injective_witness :
  1000 = 1000 /\ Sample.suffix 0 = JsString.lit "k3x0".
Proof.
  apply (generateTransactionId_injective 1000 1000 (Sample.suffix 0) (JsString.lit "k3x0")).
  reflexivity.
Defined.

(** ** The statement classifier, continued *)

(** X17: white space around a statement (blanks, tabs, line ends, no-break
    space, byte order mark) does not change how [isReadOnlyQuery] classifies
    it. *)
Theorem isReadOnlyQuery_ignores_surrounding_whitespace
    (toUpperCase : jsstr -> jsstr) (pre s post : jsstr) :
  Forall (fun u => JsString.isWhiteSpace u = true) pre ->
  Forall (fun u => JsString.isWhiteSpace u = true) post ->
  isReadOnlyQuery toUpperCase (pre ++ s ++ post) = isReadOnlyQuery toUpperCase s.
Proof.
  intros Hpre Hpost. unfold isReadOnlyQuery. by rewrite JsStringMore.trim_surrounding.
Qed.

Lemma isReadOnlyQuery_ignores_surrounding_whitespace_witness :
  isReadOnlyQuery Sample.up
    ([9; 10; 160]%N ++ JsString.lit "delete from t" ++ [32; 65279; 13; 10]%N)
  = isReadOnlyQuery Sample.up (JsString.lit "delete from t").
Proof.
  apply (isReadOnlyQuery_ignores_surrounding_whitespace Sample.up
           [9; 10; 160]%N (JsString.lit "delete from t") [32; 65279; 13; 10]%N);
    repeat constructor.
Defined.

Lemma upper_letter_not_whitespace (u : N) :
  (0x41 <= (if ((0x61 <=? u) && (u <=? 0x7A))%N then (u - 0x20)%N else u) <= 0x5A)%N ->
  JsString.isWhiteSpace u = false.
Proof.
  intros H. unfold JsString.isWhiteSpace.
  destruct (N.leb_spec 0x61 u), (N.leb_spec u 0x7A); simpl in H;
    repeat match goal with
    | |- context [(?a =? ?b)%N] => destruct (N.eqb_spec a b); [lia|]
    | |- context [(?a <=? ?b)%N] => destruct (N.leb_spec a b); try lia
    end; simpl; try done; lia.
Qed.

Lemma keyword_letters (kw : jsstr) (K : jsstr) :
  JsString.toUpperCaseAscii kw = K ->
  Forall (fun u => (0x41 <= u <= 0x5A)%N) K ->
  Forall (fun u => JsString.isWhiteSpace u = false) kw.
Proof.
  intros <- H. unfold JsString.toUpperCaseAscii in H.
  apply Forall_fmap in H. eapply list.Forall_impl; [exact H|].
  intros u Hu. by apply upper_letter_not_whitespace.
Qed.

(** X18: the classifier looks at the first characters only. A statement
    that starts with the letters of [SELECT], [WITH] or [EXPLAIN], in upper
    or lower case, is classified read-only whatever follows them: no word
    boundary is required after the keyword, and nothing after it is
    inspected. Stated for the ASCII instance of [toUpperCase]. *)
Theorem isReadOnlyQuery_looks_at_prefix_only (kw rest : jsstr) :
  JsString.toUpperCaseAscii kw = SELECT \/
  JsString.toUpperCaseAscii kw = WITH \/
  JsString.toUpperCaseAscii kw = EXPLAIN ->
  isReadOnlyQuery JsString.toUpperCaseAscii (kw ++ rest) = true.
Proof.
  intros H.
  assert (Hletters : Forall (fun u => JsString.isWhiteSpace u = false) kw).
  { destruct H as [H|[H|H]]; apply (keyword_letters _ _ H); vm_compute;
      repeat constructor; intros [=]. }
  assert (Hlen : (2 <= length kw)%nat).
  { destruct H as [H|[H|H]]; apply (f_equal length) in H;
      unfold JsString.toUpperCaseAscii in H; rewrite length_fmap in H;
      rewrite H; vm_compute; lia. }
  destruct kw as [|u kw]; [simpl in Hlen; lia|].
  destruct kw as [|v0 kw0] using rev_ind; [simpl in Hlen; lia|].
  clear IHkw0. rename kw0 into x, v0 into v.
  pose proof (Forall_inv Hletters) as Hu. pose proof (Forall_inv_tail Hletters) as Hx.
  assert (Hv : JsString.isWhiteSpace v = false).
  { apply (proj1 (list.Forall_forall _ _) Hx). apply elem_of_app. right. left. }
  simpl in Hu.
  cbn [app]. rewrite <- app_assoc. cbn [app].
  destruct (JsStringMore.trim_keeps_word u x v rest Hu Hv) as [rest' Htrim].
  unfold isReadOnlyQuery. cbv zeta. rewrite Htrim.
  assert (Hup : JsString.toUpperCaseAscii (u :: x ++ v :: rest')
                = JsString.toUpperCaseAscii (u :: x ++ [v])
                  ++ JsString.toUpperCaseAscii rest').
  { unfold JsString.toUpperCaseAscii. rewrite <- fmap_app. f_equal.
    cbn [app]. by rewrite <- app_assoc. }
  rewrite Hup.
  assert (Hstart : forall K, JsString.startsWith K (K ++ JsString.toUpperCaseAscii rest') = true).
  { intros K. apply JsStringFacts.startsWith_BeginsWith. by eexists. }
  destruct H as [H|[H|H]]; rewrite H, Hstart; by rewrite ?orb_true_r.
Qed.

(** A data-modifying statement behind [with], and a word that merely starts
    with [select]. *)
Lemma isReadOnlyQuery_looks_at_prefix_only_witness :
  isReadOnlyQuery JsString.toUpperCaseAscii
    (JsString.lit "with" ++ JsString.lit " gone as (delete from t returning id) select id from gone")
  = true /\
  isReadOnlyQuery JsString.toUpperCaseAscii
    (JsString.lit "Select" ++ JsString.lit "ion_sort(t)") = true.
Proof.
  split.
  - apply (isReadOnlyQuery_looks_at_prefix_only (JsString.lit "with")). right. left. reflexivity.
  - apply (isReadOnlyQuery_looks_at_prefix_only (JsString.lit "Select")). left. reflexivity.
Defined.

(** ** The registry, continued *)

Lemma size_set_present {V} (k : jsstr) (v : V) (m : list (jsstr * V)) :
  JsMap.has k m = true -> JsMap.size (JsMap.set k v m) = JsMap.size m.
Proof.
  unfold JsMap.size, JsMap.has. induction m as [|[k' v'] m IH]; simpl; [done|].
  destruct (decide (k' = k)); [done|]. intros H. simpl. specialize (IH H). lia.
Qed.

Lemma delete_absent {V} (k : jsstr) (m : list (jsstr * V)) :
  JsMap.has k m = false -> JsMap.delete k m = m.
Proof.
  unfold JsMap.has, JsMap.delete. induction m as [|[k' v'] m IH]; simpl; [done|].
  destruct (decide (k' = k)); [done|]. intros H. rewrite filter_cons. simpl.
  rewrite decide_True by done. by rewrite IH.
Qed.

(** X19: registering a transaction under an identifier that is not in
    the registry and removing it again gives back the registry as it was,
    in the same order; in between the identifier is present, the count is
    one higher and every other identifier resolves as before. Removing an
    identifier that is absent changes nothing. *)
Theorem registry_add_remove_roundtrip (id : jsstr) (cl : PoolClient) (statement : jsstr)
    (w : World) :
  hasTransaction id w = false ->
  hasTransaction id (addTransaction id cl statement w) = true /\
  transactionCount (addTransaction id cl statement w) = transactionCount w + 1 /\
  activeTransactions (removeTransaction id (addTransaction id cl statement w))
  = activeTransactions w /\
  activeTransactions (removeTransaction id w) = activeTransactions w /\
  (forall id', id' <> id ->
     getTransaction id' (addTransaction id cl statement w) = getTransaction id' w).
Proof.
  intros Hnew. split_and!.
  - unfold hasTransaction. simpl. apply JsMapFacts.has_get. eexists. apply JsMapFacts.get_set_eq.
  - unfold transactionCount. simpl. by apply JsMapFacts.size_set_new.
  - simpl. by apply delete_set_fresh.
  - simpl. by apply delete_absent.
  - intros id' Hne. unfold getTransaction. simpl. by apply JsMapFacts.get_set_ne.
Qed.

Lemma registry_add_remove_roundtrip_witness :
  hasTransaction Sample.id1 Sample.w2 = true /\
  transactionCount Sample.w2 = 2 /\
  activeTransactions (removeTransaction Sample.id1 Sample.w2) = [(Sample.id0, 0%nat)].
Proof.
  destruct (registry_add_remove_roundtrip Sample.id1 1%nat Sample.insert_sql
              (tick 10 Sample.w1) eq_refl) as (Hhas & Hcount & Hback & _).
  split_and!; [exact Hhas|exact Hcount|exact Hback].
Defined.

(** X20: [addTransaction] under an identifier that is already registered
    replaces the entry without changing the count. The object registered
    before stays as it is (in particular its flag stays unset and its
    connection unreleased), but no identifier leads to it any more: neither
    commit, rollback, the monitor nor the shutdown drain will find it. *)
Theorem addTransaction_overwrites (id : jsstr) (cl : PoolClient) (statement : jsstr)
    (w : World) (previous : TxRef) :
  registry_ok w ->
  getTransaction id w = Some previous ->
  transactionCount (addTransaction id cl statement w) = transactionCount w /\
  getTransaction id (addTransaction id cl statement w) = Some (length (objects w)) /\
  previous <> length (objects w) /\
  (forall k, (k, previous) ∉ activeTransactions (addTransaction id cl statement w)) /\
  objects (addTransaction id cl statement w) !! previous = objects w !! previous.
Proof.
  intros [Hnd Hok] Hget.
  pose proof (JsMapFacts.get_Some_elem _ _ _ Hget) as Hin.
  destruct (Hok _ _ Hin) as (o & Ho & Hid & Hrel).
  assert (Hlt : (previous < length (objects w))%nat) by (by eapply lookup_lt_Some).
  split_and!.
  - unfold transactionCount. simpl. apply size_set_present.
    by apply (has_getTransaction id w previous).
  - unfold getTransaction. simpl. apply JsMapFacts.get_set_eq.
  - lia.
  - intros k Hk. simpl in Hk.
    assert (Hgetk : JsMap.get k (JsMap.set id (length (objects w)) (activeTransactions w))
                    = Some previous).
    { clear -Hk Hnd. revert Hk.
      pose proof (JsMapFacts.NoDup_keys_set (activeTransactions w) id (length (objects w)) Hnd)
        as H.
      induction (JsMap.set id (length (objects w)) (activeTransactions w)) as [|[k' v'] m IH];
        intros Hk; [by apply elem_of_nil in Hk|].
      rewrite fmap_cons in H. apply list.NoDup_cons in H as [Hfresh H]. simpl.
      apply elem_of_cons in Hk as [[= <- <-]|Hk]; [by rewrite decide_True|].
      rewrite decide_False; [by apply IH|].
      intros ->. apply Hfresh. apply list_elem_of_fmap. by exists (k, previous). }
    destruct (decide (k = id)) as [->|Hne].
    + rewrite JsMapFacts.get_set_eq in Hgetk. injection Hgetk as ?. lia.
    + rewrite JsMapFacts.get_set_ne in Hgetk by done.
      destruct (Hok _ _ (JsMapFacts.get_Some_elem _ _ _ Hgetk)) as (o' & Ho' & Hid' & _).
      congruence.
  - unfold addTransaction. cbn [objects with_registry with_objects]. by apply lookup_app_l.
Qed.

(** A second registration under [Sample.id0], on connection 1: connection 0
    is left open and out of reach. *)
Lemma addTransaction_overwrites_witness :
  let w' := addTransaction Sample.id0 1%nat Sample.insert_sql Sample.w1 in
  transactionCount w' = 1 /\
  getTransaction Sample.id0 w' = Some 1%nat /\
  (forall k, (k, 0%nat) ∉ activeTransactions w') /\
  (exists o, objects w' !! 0%nat = Some o /\ client o = 0%nat /\ released o = false).
Proof.
  destruct (addTransaction_overwrites Sample.id0 1%nat Sample.insert_sql Sample.w1 0%nat
              registry_ok_sample eq_refl) as (Hcount & Hget & _ & Hout & Hobj).
  split_and!; [exact Hcount|exact Hget|exact Hout|].
  eexists. split; [exact Hobj|]. split; reflexivity.
Defined.

(** ** Starting and stopping the monitor *)

Lemma monitor_call_ok (monitorEnabled : bool) (t : Timers) (c : MonitorCall) :
  timers_ok monitorEnabled t -> timers_ok monitorEnabled (monitor_call monitorEnabled t c).
Proof.
  intros [Hrun Hoff]. destruct c; cbn [monitor_call].
  - unfold startMonitor. destruct monitorEnabled; cbn [andb]; [|by split].
    destruct (monitorInterval t) as [h|] eqn:E.
    + rewrite bool_decide_true by (by eexists). cbn [negb]. split; [by rewrite E|done].
    + rewrite bool_decide_false by (by intros [? ?]). cbn [negb].
      split; [|done]. cbn [running monitorInterval]. by rewrite Hrun.
  - unfold stopMonitor. destruct (monitorInterval t) as [h|] eqn:E.
    + split; [|done]. cbn [running monitorInterval]. rewrite Hrun.
      rewrite filter_cons. by rewrite decide_False by tauto.
    + split; [by rewrite E|done].
Qed.

(** X21: however [startMonitor] and [stopMonitor] are called on a new
    manager, at most one interval runs; none runs when the monitor is
    disabled; [stopMonitor] leaves none running; and a second [startMonitor]
    in a row starts no second interval. *)
Theorem monitor_at_most_one_interval (monitorEnabled : bool) (calls : list MonitorCall) :
  let t := foldl (monitor_call monitorEnabled) noTimers calls in
  (length (running t) <= 1)%nat /\
  (if monitorEnabled then True else running t = []) /\
  running (stopMonitor t) = [] /\
  running (startMonitor monitorEnabled (startMonitor monitorEnabled t))
  = running (startMonitor monitorEnabled t).
Proof.
  intros t.
  assert (Hok : timers_ok monitorEnabled t).
  { subst t. generalize noTimers (conj (eq_refl : running noTimers = []) (fun _ => eq_refl)
                                  : timers_ok monitorEnabled noTimers).
    induction calls as [|c calls IH]; intros t0 H0; [done|].
    simpl. apply IH. by apply monitor_call_ok. }
  destruct Hok as [Hrun Hoff]. split_and!.
  - rewrite Hrun. destruct (monitorInterval t); simpl; lia.
  - destruct monitorEnabled; [done|]. by rewrite Hrun, Hoff.
  - unfold stopMonitor. destruct (monitorInterval t) as [h|] eqn:E.
    + cbn [running]. rewrite Hrun, ?E, filter_cons. by rewrite decide_False by tauto.
    + by rewrite Hrun, ?E.
  - unfold startMonitor at 1.
    destruct (monitorEnabled && _) eqn:E; [|done].
    apply andb_true_iff in E as [E1 E2]. apply negb_true_iff in E2.
    apply bool_decide_eq_false in E2. exfalso. apply E2.
    unfold startMonitor. destruct (monitorEnabled && _) eqn:E'; simpl; [by eexists|].
    rewrite E1 in E'. simpl in E'. apply negb_false_iff, bool_decide_eq_true in E'. done.
Qed.

(** ** The schema tools *)

Lemma run_pool_connect {R} (k : PoolClient -> Async R) w d r settle :
  run (bind pool_connect k) w ((d, Resolved r) :: settle)
  = run (k (length (trace w))) (record_event (EvAcquire (length (trace w))) (tick d w)) settle.
Proof. done. Qed.

Lemma run_finally_query_resolved {R} c text (k : QueryResult -> Async R) final w d r settle :
  run (try_finally (bind (client_query c text) k) final) w ((d, Resolved r) :: settle)
  = run (try_finally (k r) final) (tick d (record_event (EvQuery c text) w)) settle.
Proof. done. Qed.

Lemma run_finally_query_rejected {R} c text (k : QueryResult -> Async R) final w d e settle :
  run (try_finally (bind (client_query c text) k) final) w ((d, Rejected e) :: settle)
  = run (bind final (fun _ => Throw e)) (tick d (record_event (EvQuery c text) w)) settle.
Proof. done. Qed.

Lemma run_safelyReleaseClient_then {R} c (k : unit -> Async R) w settle :
  run (bind (safelyReleaseClient c) k) w settle
  = run (k tt) (record_event (EvRelease c) w) settle.
Proof. simpl. by destruct (decide _). Qed.

Lemma trace_record_event e w : trace (record_event e w) = trace w ++ [e].
Proof. done. Qed.

Lemma trace_tick d w : trace (tick d w) = trace w.
Proof. done. Qed.

Lemma activeTransactions_record_event e w :
  activeTransactions (record_event e w) = activeTransactions w.
Proof. done. Qed.

Lemma activeTransactions_tick d w : activeTransactions (tick d w) = activeTransactions w.
Proof. done. Qed.

Ltac world_fields :=
  repeat first
    [ rewrite trace_record_event | rewrite trace_tick
    | rewrite activeTransactions_record_event | rewrite activeTransactions_tick ].

(** One step per [await] of a handler that leases a connection, sends
    statements inside [try] and releases in [finally]. *)
Ltac leased_steps :=
  unfold mbind, Async_bind;
  rewrite run_pool_connect;
  rewrite ?run_finally_query_resolved;
  rewrite ?run_finally_query_rejected;
  cbn [try_finally];
  rewrite run_safelyReleaseClient_then;
  cbn [run].

(** X22: [handleListTables] throws the pool's error when no connection is
    to be had. With a connection it sends its one statement, and whether the
    database answers or rejects it, releases the connection exactly once and
    leaves the registry alone; a rejection is thrown to the caller after the
    release. *)
Theorem handleListTables_releases_once (schemaName : jsstr) (w : World) (d0 : Z)
    (settle : list (Z * Response)) :
  let c := length (trace w) in
  (forall e,
     run (handleListTables schemaName) w ((d0, Rejected e) :: settle)
     = (tick d0 w, Raised e, settle)) /\
  (forall r0 d1 y,
     exists w',
       run (handleListTables schemaName) w ((d0, Resolved r0) :: (d1, y) :: settle)
       = (w',
          match y with
          | Resolved result => Finished (rows result)
          | Rejected e => Raised e
          end,
          settle) /\
       trace w' = trace w ++ [EvAcquire c; EvQuery c (listTablesQuery schemaName);
                              EvRelease c] /\
       activeTransactions w' = activeTransactions w /\
       objects w' = objects w).
Proof.
  intros c. split.
  - intros e. done.
  - intros r0 d1 y. unfold handleListTables.
    generalize (listTablesQuery schemaName). intros text.
    destruct y as [result|e]; simpl; release_cases; simpl;
      (eexists; split; [done|]); simpl;
      (split_and!; [by rewrite <- !app_assoc|done|done]).
Qed.

(** X23: [handleDescribeTable] turns a missing table name down before it
    asks the pool for a connection. Otherwise, when the database answers all
    of them, it sends six statements on one connection, in the order
    columns, primary key, foreign keys, table comment, row count, indexes,
    builds its description from the six results, and releases the connection
    once, after the last answer; the registry is not touched. *)
Theorem handleDescribeTable_describes (tableName schemaName : jsstr) (w : World)
    (d0 : Z) (r0 : QueryResult) (d1 : Z) (cols : QueryResult) (d2 : Z) (pk : QueryResult)
    (d3 : Z) (fk : QueryResult) (d4 : Z) (desc : QueryResult) (d5 : Z) (cnt : QueryResult)
    (d6 : Z) (idx : QueryResult) (settle : list (Z * Response)) :
  let c := length (trace w) in
  (JsString.falsy tableName = true ->
     run (handleDescribeTable tableName schemaName) w settle
     = (w, Finished NoTableNameProvided, settle)) /\
  (JsString.falsy tableName = false ->
     exists w',
       run (handleDescribeTable tableName schemaName) w
         ((d0, Resolved r0) :: (d1, Resolved cols) :: (d2, Resolved pk) :: (d3, Resolved fk)
          :: (d4, Resolved desc) :: (d5, Resolved cnt) :: (d6, Resolved idx) :: settle)
       = (w',
          Finished (Described
            {| schema_name := schemaName; table_name := tableName;
               tableDescResult := desc; rowCountResult := cnt; columnsResult := cols;
               pkResult := pk; fkResult := fk; indexesResult := idx |}),
          settle) /\
       trace w' = trace w ++ EvAcquire c
                    :: (EvQuery c <$> describeTableQueries tableName schemaName)
                    ++ [EvRelease c] /\
       activeTransactions w' = activeTransactions w).
Proof.
  intros c. split; intros Hs; unfold handleDescribeTable, describeTableQueries; rewrite Hs;
    [done|].
  leased_steps.
  eexists; split; [reflexivity|].
  world_fields.
  split; [|done]. rewrite <- !app_assoc. done.
Qed.

Lemma handleDescribeTable_describes_witness :
  run (handleDescribeTable [] public) Sample.w0 [(0, Sample.leased)]
  = (Sample.w0, Finished NoTableNameProvided, [(0, Sample.leased)]) /\
  exists w',
    run (handleDescribeTable (JsString.lit "t") public) Sample.w0
      [(0, Sample.leased); (1, Sample.answered "SELECT" 2); (1, Sample.answered "SELECT" 1);
       (1, Sample.answered "SELECT" 0); (1, Sample.answered "SELECT" 1);
       (1, Sample.answered "SELECT" 1); (1, Sample.answered "SELECT" 3)]
    = (w',
       Finished (Described
         {| schema_name := public; table_name := JsString.lit "t";
            tableDescResult := mkQueryResult (JsString.lit "SELECT") 1 [];
            rowCountResult := mkQueryResult (JsString.lit "SELECT") 1 [];
            columnsResult := mkQueryResult (JsString.lit "SELECT") 2 [];
            pkResult := mkQueryResult (JsString.lit "SELECT") 1 [];
            fkResult := mkQueryResult (JsString.lit "SELECT") 0 [];
            indexesResult := mkQueryResult (JsString.lit "SELECT") 3 [] |}),
       []) /\
    trace w' = trace Sample.w0 ++ EvAcquire 0%nat
                 :: (EvQuery 0%nat <$> describeTableQueries (JsString.lit "t") public)
                 ++ [EvRelease 0%nat] /\
    activeTransactions w' = activeTransactions Sample.w0.
Proof.
  split.
  - apply (proj1 (handleDescribeTable_describes [] public Sample.w0
                    0 (mkQueryResult [] 0 []) 0 (mkQueryResult [] 0 [])
                    0 (mkQueryResult [] 0 []) 0 (mkQueryResult [] 0 [])
                    0 (mkQueryResult [] 0 []) 0 (mkQueryResult [] 0 [])
                    0 (mkQueryResult [] 0 []) [(0, Sample.leased)])).
    reflexivity.
  - apply (proj2 (handleDescribeTable_describes (JsString.lit "t") public Sample.w0
                    0 (mkQueryResult [] 0 [])
                    1 (mkQueryResult (JsString.lit "SELECT") 2 [])
                    1 (mkQueryResult (JsString.lit "SELECT") 1 [])
                    1 (mkQueryResult (JsString.lit "SELECT") 0 [])
                    1 (mkQueryResult (JsString.lit "SELECT") 1 [])
                    1 (mkQueryResult (JsString.lit "SELECT") 1 [])
                    1 (mkQueryResult (JsString.lit "SELECT") 3 []) [])).
    reflexivity.
Defined.

(** X24: when the database rejects one of the six statements of
    [handleDescribeTable], the handler sends none of the statements after
    it, releases the connection once and throws that error to its caller. *)
Theorem handleDescribeTable_stops_at_first_failure (tableName schemaName : jsstr)
    (w : World) (d0 : Z) (r0 : QueryResult) (answers : list (Z * QueryResult))
    (d : Z) (e : Error) (settle : list (Z * Response)) :
  JsString.falsy tableName = false ->
  (length answers < 6)%nat ->
  let c := length (trace w) in
  exists w',
    run (handleDescribeTable tableName schemaName) w
      ((d0, Resolved r0) :: resolved_all answers ++ (d, Rejected e) :: settle)
    = (w', Raised e, settle) /\
    trace w' = trace w ++ EvAcquire c
                 :: (EvQuery c <$> take (S (length answers))
                                     (describeTableQueries tableName schemaName))
                 ++ [EvRelease c] /\
    activeTransactions w' = activeTransactions w.
Proof.
  intros Hs Hlen c. unfold handleDescribeTable, describeTableQueries. rewrite Hs.
  destruct answers as [|[? ?] [|[? ?] [|[? ?] [|[? ?] [|[? ?] [|[? ?] [|? ?]]]]]]];
    try (simpl in Hlen; lia); clear Hlen;
    cbn [resolved_all fmap list_fmap app fst snd length take];
    leased_steps;
    (eexists; split; [reflexivity|]);
    world_fields;
    (split; [|done]); rewrite <- !app_assoc; done.
Qed.

(** The third statement is rejected: three were sent, then the release. *)
Lemma handleDescribeTable_stops_at_first_failure_witness :
  exists w',
    run (handleDescribeTable (JsString.lit "t") public) Sample.w0
      ((0, Sample.leased)
       :: resolved_all [(1, mkQueryResult (JsString.lit "SELECT") 2 []);
                        (1, mkQueryResult (JsString.lit "SELECT") 1 [])]
       ++ [(4, Rejected Sample.boom)])
    = (w', Raised Sample.boom, []) /\
    trace w' = trace Sample.w0 ++ EvAcquire 0%nat
                 :: (EvQuery 0%nat <$> take 3 (describeTableQueries (JsString.lit "t") public))
                 ++ [EvRelease 0%nat] /\
    activeTransactions w' = activeTransactions Sample.w0.
Proof.
  apply (handleDescribeTable_stops_at_first_failure (JsString.lit "t") public Sample.w0
           0 (mkQueryResult [] 0 [])
           [(1, mkQueryResult (JsString.lit "SELECT") 2 []);
            (1, mkQueryResult (JsString.lit "SELECT") 1 [])]
           4 Sample.boom []).
  - reflexivity.
  - simpl. lia.
Defined.

(** ** The request handler of the [Server]-based entry point *)

Section CallToolFacts.

Variable toUpperCase : jsstr -> jsstr.
Variable cfg : Config.

(** X25: a tool name that is none of the five [case] labels is answered
    with the error text [Error: Unknown tool: <name>]; no connection is
    asked for and the process state is untouched. [execute_rollback] is such
    a name: this entry point has no rollback tool. *)
Theorem callTool_unknown_tool (name : jsstr) (arguments : ToolArguments) (w : World)
    (settle : list (Z * Response)) :
  name ∉ known_tools ->
  run (callTool toUpperCase cfg name arguments) w settle
  = (w, Finished (ErrorReply (JsString.lit "Error: Unknown tool: " ++ name)), settle).
Proof.
  intros H. unfold known_tools in H.
  repeat (apply not_elem_of_cons in H as [? H]).
  unfold callTool. rewrite !decide_False by done. done.
Qed.

(** X26: the request handler never throws: an error thrown by a handler
    (a refused connection, a rejected statement) comes back as an error
    reply. *)
Theorem callTool_never_throws (name : jsstr) (arguments : ToolArguments) (w : World)
    (settle : list (Z * Response)) :
  forall w' e rest,
    run (callTool toUpperCase cfg name arguments) w settle <> (w', Raised e, rest).
Proof.
  intros w' e rest. unfold callTool. rewrite run_try_catch.
  destruct (run _ w settle) as [[w1 [a|e1|rq k]] rest1]; simpl; congruence.
Qed.

(** X27: the request handler applies the concurrency ceiling to
    [execute_dml_ddl_dcl_tcl] as the registered tool does: at or above the
    ceiling the call is refused before a connection is asked for, and the
    process state is untouched. *)
Theorem callTool_ceiling (arguments : ToolArguments) (w : World)
    (settle : list (Z * Response)) :
  transactionCount w >= maxConcurrentTransactions cfg ->
  run (callTool toUpperCase cfg (JsString.lit "execute_dml_ddl_dcl_tcl") arguments) w settle
  = (w, Finished (ToolReply (TooManyTransactions (maxConcurrentTransactions cfg))), settle).
Proof.
  intros H. unfold callTool.
  rewrite decide_False by (intros [=]). rewrite decide_True by done.
  simpl. destruct (Z.geb_spec (transactionCount w) (maxConcurrentTransactions cfg)); [done|lia].
Qed.

End CallToolFacts.

Lemma callTool_unknown_tool_witness :
  run (callTool Sample.up defaultConfig (JsString.lit "execute_rollback")
         (mkToolArguments [] Sample.id0 [])) Sample.w1 []
  = (Sample.w1,
     Finished (ErrorReply (JsString.lit "Error: Unknown tool: execute_rollback")), []).
Proof.
  apply (callTool_unknown_tool Sample.up defaultConfig (JsString.lit "execute_rollback")
           (mkToolArguments [] Sample.id0 []) Sample.w1 []).
  apply (bool_decide_unpack _). by vm_compute.
Defined.

Lemma callTool_ceiling_witness :
  run (callTool Sample.up Sample.cfg1 (JsString.lit "execute_dml_ddl_dcl_tcl")
         (mkToolArguments Sample.insert_sql [] [])) Sample.w1 [(0, Sample.leased)]
  = (Sample.w1, Finished (ToolReply (TooManyTransactions 1)), [(0, Sample.leased)]).
Proof.
  apply (callTool_ceiling Sample.up Sample.cfg1 (mkToolArguments Sample.insert_sql [] [])
           Sample.w1 [(0, Sample.leased)]).
  vm_compute. discriminate.
Defined.
